(** * FoxDot pattern functions ([FoxDot/lib/Patterns/Sequences.py])

    A shallow embedding of the pattern functions of [Sequences.py] and the
    properties stated about them.

    Conventions of the embedding.
    - A [Pattern] (and a Python list handed to a pattern function) is the
      list of its elements, in order.
    - Python numbers are exact rationals ([Q]); Python's [==] on numbers is
      [Qeq].  The floats that occur in the statements below are dyadic
      rationals of small magnitude, on which binary floating point computes
      without rounding; a statement about the value of a float says so in
      its hypotheses.  Where rounding decides, in the loop of [PDur], the
      division is the one of doubles ([double_half]).
    - A call either returns, raises, or runs for ever; loops are given fuel
      and a call that is still running when the fuel is spent is
      [OutOfFuel]. *)

From Stdlib Require Import ZArith QArith Qround List Bool Lia Arith PeanoNat.
From Stdlib Require String.
From Stdlib Require Import Lqa Permutation.
Import ListNotations.

Set Implicit Arguments.

(* ================================================================== *)
(** ** Outcomes of a Python call *)
(* ================================================================== *)

Module Py.

(** The exceptions that the modelled code can raise. *)
Inductive exn : Type :=
| InvalidArgument
| AlignmentError
| IndexError
| ZeroDivisionError
| TypeError
| OverflowError
| NotModelled.   (* the call leaves the fragment of Python embedded here *)

Inductive outcome (A : Type) : Type :=
| Returned (a : A)
| Raised (e : exn)
| OutOfFuel.

Arguments Returned {A} a.
Arguments Raised {A} e.
Arguments OutOfFuel {A}.

Definition bind {A B : Type} (m : outcome A) (f : A -> outcome B) : outcome B :=
  match m with
  | Returned a => f a
  | Raised e => Raised e
  | OutOfFuel => OutOfFuel
  end.

(** [for x in xs: ...] where every round may raise: the rounds run in
    order and the first one that does not return ends the loop. *)
Fixpoint for_each {A S : Type} (body : S -> A -> outcome S) (xs : list A) (s : S)
  : outcome S :=
  match xs with
  | [] => Returned s
  | x :: rest => bind (body s x) (for_each body rest)
  end.

(** [range(n)] for a Python integer [n]: empty when [n <= 0]. *)
Definition range (n : Z) : list Z := map Z.of_nat (seq 0 (Z.to_nat n)).

(** [xs[i]] for a Python integer index: negative indices count from the
    end, anything outside [-len, len) raises [IndexError]. *)
Definition index_of (len : nat) (i : Z) : option nat :=
  if (0 <=? i)%Z then
    (if (i <? Z.of_nat len)%Z then Some (Z.to_nat i) else None)
  else
    (if (- Z.of_nat len <=? i)%Z then Some (Z.to_nat (Z.of_nat len + i)) else None).

(** [sum(data)]: Python folds from the integer 0, left to right. *)
Definition sum (data : list Q) : Q := fold_left Qplus data 0.

(** [a < b] on numbers. *)
Definition Qltb (a b : Q) : bool := negb (Qle_bool b a).

(** Python's [==] on two lists of numbers. *)
Definition num_eq (xs ys : list Q) : Prop := Forall2 Qeq xs ys.

Fixpoint num_eqb (xs ys : list Q) : bool :=
  match xs, ys with
  | [], [] => true
  | x :: xs', y :: ys' => Qeq_bool x y && num_eqb xs' ys'
  | _, _ => false
  end.

End Py.

Import Py.

Notation "x <- m ;; k" := (Py.bind m (fun x => k))
  (at level 61, m at next level, right associativity).
Notation "' p <- m ;; k" := (Py.bind m (fun p => k))
  (at level 61, p pattern, m at next level, right associativity).

(* ================================================================== *)
(** ** The pattern container and the utilities [Sequences.py] imports *)
(* ================================================================== *)

Module Container.

(** Modelled from the spec: [Utils.LCM], imported by [Sequences.py] and not
    part of that file.  The least common multiple of the given lengths;
    "LCM of an empty list of lengths is undefined" and "LCM with any
    zero-length input fails with an InvalidArgument error". *)
Definition LCM (lens : list nat) : outcome nat :=
  match lens with
  | [] => Raised AlignmentError
  | _ :: _ =>
      if existsb (Nat.eqb 0) lens then Raised InvalidArgument
      else Returned (fold_right Nat.lcm 1%nat lens)
  end.

(** Modelled from the spec: [Utils.modi], the modular index
    [element_at(seq, i) = seq[i mod len(seq)]].  On the empty sequence the
    index [i mod 0] has no value and there is no element. *)
Definition modi {A : Type} (array : list A) (i : nat) : outcome A :=
  match length array with
  | O => Raised ZeroDivisionError
  | S _ =>
      match nth_error array (i mod length array) with
      | Some x => Returned x
      | None => Raised IndexError
      end
  end.

(** Modelled from the spec: [Main.asStream], the construction facade
    "if input is already a Sequence, return it unchanged", an iterable of
    literals becoming the Sequence of its elements in order. *)
Definition asStream {A : Type} (p : list A) : list A := p.

(** Modelled from the spec: the [Pattern] constructor on a list of
    elements, the Sequence of those elements. *)
Definition Pattern {A : Type} (data : list A) : list A := data.

(** Modelled from the spec: the elements of a Sequence, "numbers, strings,
    nested Sequences": an atom or a Sequence of elements. *)
#[warnings="-register-all"]
Inductive element (A : Type) : Type :=
| Atom (a : A)
| Nested (p : list (element A)).

Arguments Atom {A} a.
Arguments Nested {A} p.

(** Modelled from the spec: [element_at(seq, i) = seq[i mod len(seq)]] as
    the container reads it.  On the empty Sequence the index [i mod 0]
    cannot be formed and the spec names no element; reading is still total
    there, and the element handed back is taken to be the Sequence itself,
    an empty one. *)
Definition element_at {A : Type} (array : list (element A)) (i : nat) : element A :=
  match modi array i with
  | Returned x => x
  | _ => Nested array
  end.

(** Modelled from the spec: [Pattern.stretch], "cyclically repeats seq
    (element_at semantics) until exactly size elements are produced,
    truncating the final cycle if needed". *)
Definition stretch {A : Type} (self : list (element A)) (size : Z)
  : outcome (list (element A)) :=
  for_each (fun new n => Returned (new ++ [element_at self n]))
           (seq 0 (Z.to_nat size)) [].

(** Modelled from the spec: [Pattern.rotate], "cyclic shift left by n". *)
Definition rotate {A : Type} (self : list A) (n : Z) : list A :=
  match self with
  | [] => []
  | _ :: _ =>
      let m := Z.to_nat (n mod Z.of_nat (length self)) in
      skipn m self ++ firstn m self
  end.

(** Modelled from the spec: [Pattern.accum], the "running cumulative sum
    (each element = sum of all prior durations)". *)
Fixpoint accum_from (acc : Q) (self : list Q) : list Q :=
  match self with
  | [] => []
  | x :: rest => acc :: accum_from (acc + x) rest
  end.

(** Modelled from the spec: [Pattern.accum] starts from no prior duration. *)
Definition accum (self : list Q) : list Q := accum_from 0 self.

(** Modelled from the spec: [Pattern.__mul__] with a number, the
    elementwise product "broadcasting scalar-to-sequence". *)
Definition scale (self : list Z) (dur : Q) : list Q :=
  map (fun x => inject_Z x * dur) self.

(** Modelled from the spec: [Utils.EuclidsAlgorithm], the "standard
    Bjorklund bisection procedure (recursively distribute n groups of
    [pulse] among k-n groups of [rest], merging remainders)".  A round
    appends one remainder group to each leading group, as many as there
    are of both; what is left over of either kind is the next round's
    remainder.  It stops when at most one remainder group is left. *)
Fixpoint bjorklund (rounds : nat) (heads rests : list (list Z)) : list (list Z) :=
  match rounds with
  | O => heads ++ rests
  | S rounds' =>
      if (length rests <=? 1)%nat then heads ++ rests
      else
        let m := Nat.min (length heads) (length rests) in
        let merged := map (fun hr => fst hr ++ snd hr) (combine heads rests) in
        let left := skipn m heads ++ skipn m rests in
        bjorklund rounds' merged left
  end.

(** Modelled from the spec: [Utils.EuclidsAlgorithm(n, k)] distributes [n]
    groups of a pulse among [k-n] groups of a rest, and "n <= 0 or k <= 0 to
    euclid fails with an InvalidArgument error". *)
Definition EuclidsAlgorithm (n k : Z) : outcome (list Z) :=
  if ((n <=? 0) || (k <=? 0))%Z then Raised InvalidArgument
  else
    let heads := repeat [1%Z] (Z.to_nat n) in
    let rests := repeat [0%Z] (Z.to_nat (k - n)) in
    Returned (concat (bjorklund (Z.to_nat k) heads rests)).

(** Modelled from the spec: [Utils.PulsesToDurations], the Duration
    Sequence of a Pulse Sequence, "derived by run-length measurement
    between consecutive pulse-value entries (wrapping at the end back to
    the first entry)": the first entry opens a run, every later pulse
    closes the run before it, and the last run reaches the end. *)
Fixpoint runs (count : Z) (data : list Z) : list Z :=
  match data with
  | [] => [count]
  | item :: rest =>
      if (item =? 1)%Z then count :: runs 1 rest else runs (count + 1) rest
  end.

(** Modelled from the spec: [Utils.PulsesToDurations], the runs counted from
    the first entry. *)
Definition PulsesToDurations (data : list Z) : list Z := runs 1 (tl data).

(** Modelled from the spec: the decorator [Main.loop_pattern_func], the
    broadcast rule.  "If none of its arguments is Sequence-valued, it is
    invoked once and returns one Sequence.  If one or more arguments are
    Sequence-valued, the generator instead returns the concatenation of
    per-call results obtained by iterating i from 0 to L-1, where L is the
    least common multiple of the lengths of all Sequence-valued arguments;
    at each i, every Sequence-valued argument supplies element_at(arg, i)
    and every scalar argument is reused as-is; the generator is invoked
    with this resolved argument set and its result is appended (if the
    result is itself a Sequence, it is wrapped as one Group-like step
    unless the generator is explicitly exempt from wrapping)". *)
Inductive param (V : Type) : Type :=
| Scalar (v : V)
| SeqArg (p : list V).

Arguments Scalar {V} v.
Arguments SeqArg {V} p.

(** Modelled from the spec: "the lengths of all Sequence-valued arguments". *)
Definition seq_lengths {V : Type} (args : list (param V)) : list nat :=
  flat_map (fun a => match a with Scalar _ => [] | SeqArg p => [length p] end) args.

(** Modelled from the spec: "every Sequence-valued argument supplies
    element_at(arg, i) and every scalar argument is reused as-is". *)
Definition resolve {V : Type} (i : nat) (a : param V) : outcome V :=
  match a with
  | Scalar v => Returned v
  | SeqArg p => modi p i
  end.

(** Modelled from the spec: the "resolved argument set" of round [i]. *)
Definition resolve_all {V : Type} (i : nat) (args : list (param V)) : outcome (list V) :=
  for_each (fun acc a => v <- resolve i a ;; Returned (acc ++ [v])) args [].

(** Modelled from the spec: one per-call result as it is appended, "wrapped
    as one Group-like step unless the generator is explicitly exempt from
    wrapping". *)
Definition step_of {R : Type} (exempt : bool) (wrap : list R -> R) (r : list R) : list R :=
  if exempt then r else [wrap r].

(** Modelled from the spec: the decorator itself, invoking the generator
    once on scalars and once per index up to the LCM otherwise. *)
Definition loop_pattern_func {V R : Type} (exempt : bool) (wrap : list R -> R)
           (f : list V -> outcome (list R)) (args : list (param V))
  : outcome (list R) :=
  match seq_lengths args with
  | [] => resolved <- resolve_all 0 args ;; f resolved
  | lens =>
      L <- LCM lens ;;
      for_each (fun pat i =>
                  resolved <- resolve_all i args ;;
                  r <- f resolved ;;
                  Returned (pat ++ step_of exempt wrap r))
               (seq 0 L) []
  end.

End Container.

Import Container.

(* ================================================================== *)
(** ** Python values and the object store *)
(* ================================================================== *)

Module Store.

(** Lists and Patterns are mutable objects and are held by reference;
    numbers, strings, tuples and PGroups are held by value. *)
Definition loc := nat.

#[warnings="-register-all"]
Inductive value : Type :=
| VInt (z : Z)
| VFloat (q : Q)
| VStr (s : String.string)
| VTuple (items : list value)
| VGroup (arg : value)          (* [PGroup(arg)] *)
| VRef (l : loc).               (* a list or a Pattern object *)

Inductive kind : Type := KList | KPattern.

Record object : Type := mk_object { kind_of : kind; data : list value }.

Definition heap := list object.

Definition deref (h : heap) (l : loc) : option object := nth_error h l.

Definition alloc (h : heap) (o : object) : loc * heap := (length h, h ++ [o]).

Fixpoint update (h : heap) (l : loc) (o : object) : heap :=
  match h, l with
  | [], _ => []
  | _ :: rest, O => o :: rest
  | x :: rest, S l' => x :: update rest l' o
  end.

(** [obj.append(v)] on the object at [l]. *)
Definition append (h : heap) (l : loc) (v : value) : outcome heap :=
  match deref h l with
  | Some o => Returned (update h l (mk_object (kind_of o) (data o ++ [v])))
  | None => Raised NotModelled
  end.

(** Modelled from the spec: the [PGroup] constructor of [PGroups.py], "a
    tuple of values tagged with a combination kind" (here the plain
    kind).  The value records what the constructor was given. *)
Definition PGroup (arg : value) : value := VGroup arg.

(** [isinstance(item, (tuple, PGroup))] *)
Definition is_tuple_or_PGroup (item : value) : bool :=
  match item with
  | VTuple _ | VGroup _ => true
  | _ => false
  end.

(** The positional arguments that [f( *item )] passes. *)
Definition star_args (item : value) : outcome (list value) :=
  match item with
  | VTuple items => Returned items
  | VGroup (VTuple items) => Returned items
  | _ => Raised NotModelled
  end.

Definition number (v : value) : outcome Q :=
  match v with
  | VInt z => Returned (inject_Z z)
  | VFloat q => Returned q
  | _ => Raised NotModelled
  end.

End Store.

Import Store.

(* ================================================================== *)
(** ** [Sequences.py] *)
(* ================================================================== *)

Module Sequences.

(** *** 1. [P[]] and [P()] *)

(** [__pattern__.__call__(self, args...)]:
    [return PGroup(args if len(args) > 1 else args[0])] *)
Definition P_call (args : list value) : outcome value :=
  arg <- (if (1 <? length args)%nat then Returned (VTuple args)
          else match args with
               | a :: _ => Returned a
               | [] => Raised IndexError
               end) ;;
  Returned (PGroup arg).

(** *** 2. Pattern functions *)

(** [PAlt(pat1, pat2, patN...)]:
<<
    data = []
    item = [asStream(p) for p in [pat1, pat2] + list(patN)]
    size = LCM of [len(i) for i in item]
    for n in range(size):
        for i in item:
            data.append(modi(i,n))
    return Pattern(data)
>> *)
Definition PAlt {A : Type} (pat1 pat2 : list A) (patN : list (list A))
  : outcome (list A) :=
  let item := map (@asStream A) ([pat1; pat2] ++ patN) in
  size <- LCM (map (@length A) item) ;;
  data <- for_each
            (fun data n =>
               for_each (fun data i => x <- modi i n ;; Returned (data ++ [x]))
                        item data)
            (seq 0 size) [] ;;
  Returned (Pattern data).

(** [PStretch(seq, size)]: [return Pattern(seq).stretch(size)] *)
Definition PStretch {A : Type} (seq : list (element A)) (size : Z)
  : outcome (list (element A)) :=
  stretch (Pattern seq) size.

(** [PStutter(x, n=2)]: [return Pattern([x for i in range(n)])] *)
Definition PStutter {A : Type} (x : A) (n : Z) : list A :=
  Pattern (map (fun _ => x) (range n)).

(** [PStep(n, value, default=0)]:
    [return Pattern([default] * (n-1) + [value])] *)
Definition PStep {A : Type} (n : Z) (value default : A) : list A :=
  Pattern (repeat default (Z.to_nat (n - 1)) ++ [value]).

(** [PSum(n, total, lim=0.125)], first loop:
<<
    data = [total + 1]
    step = 1
    while sum(data) > total:
        data = [step for x in range(n)]
        step *= 0.5
>> *)
Fixpoint PSum_guess (fuel : nat) (n : Z) (total : Q) (data : list Q) (step : Q)
  : outcome (list Q * Q) :=
  match fuel with
  | O => OutOfFuel
  | S fuel' =>
      if Qltb total (sum data)
      then PSum_guess fuel' n total (map (fun _ => step) (range n)) (step * (1 # 2))
      else Returned (data, step)
  end.

(** [data[j] += step] *)
Definition add_at (data : list Q) (j : Z) (step : Q) : outcome (list Q) :=
  match index_of (length data) j with
  | Some m => Returned (firstn m data ++ (nth m data 0 + step) :: skipn (S m) data)
  | None => Raised IndexError
  end.

(** [i % n] *)
Definition py_mod (i n : Z) : outcome Z :=
  if (n =? 0)%Z then Raised ZeroDivisionError else Returned (i mod n)%Z.

(** Second loop:
<<
    i = 0
    while sum(data) < total and step >= lim:
        if sum(data) + step > total:
            step *= 0.5
        else:
            data[i % n] += step
            i += 1
>> *)
Fixpoint PSum_fill (fuel : nat) (n : Z) (total lim : Q) (data : list Q) (step : Q) (i : Z)
  : outcome (list Q) :=
  match fuel with
  | O => OutOfFuel
  | S fuel' =>
      if Qltb (sum data) total && Qle_bool lim step then
        if Qltb total (sum data + step)
        then PSum_fill fuel' n total lim data (step * (1 # 2)) i
        else
          j <- py_mod i n ;;
          data' <- add_at data j step ;;
          PSum_fill fuel' n total lim data' step (i + 1)
      else Returned data
  end.

Definition PSum (fuel : nat) (n : Z) (total lim : Q) : outcome (list Q) :=
  '(data, step) <- PSum_guess fuel n total [total + 1] 1 ;;
  data <- PSum_fill fuel n total lim data step 0 ;;
  Returned (Pattern data).

(** [lim = kwargs.get("lim", 0.125)] *)
Definition lim_default : Q := 1 # 8.

(** [PDur(n, k, start=0, dur=0.25)], the loop
<<
    while n > k:
        k   = k * 2
        dur = dur / 2
>>
    with [dur / 2] taken exactly, as it is on a double short of underflow;
    [PDur_refine_double] below rounds. *)
Fixpoint PDur_refine (fuel : nat) (n k : Z) (dur : Q) : outcome (Z * Q) :=
  match fuel with
  | O => OutOfFuel
  | S fuel' =>
      if (k <? n)%Z then PDur_refine fuel' n (k * 2)%Z (dur / 2)
      else Returned (k, dur)
  end.

(** [dur] is a double.  The finite doubles are multiples of [2^-1074]
    (with a mantissa of 53 bits): [d * double_grid] is an integer. *)
Definition double_grid : Q := inject_Z (2 ^ 1074).

(** [d / 2] on a double [d]: exact when [d] is an even multiple of
    [2^-1074]; for an odd multiple the quotient lies half way between two
    doubles and is rounded to the even one. *)
Definition double_half (d : Q) : Q :=
  let u := Qfloor (d * double_grid) in
  if Z.even u then d / 2
  else
    let lo := (u / 2)%Z in
    inject_Z (if Z.even lo then lo else lo + 1) / double_grid.

(** The loop [while n > k] with [dur / 2] computed on doubles. *)
Fixpoint PDur_refine_double (fuel : nat) (n k : Z) (dur : Q) : outcome (Z * Q) :=
  match fuel with
  | O => OutOfFuel
  | S fuel' =>
      if (k <? n)%Z then PDur_refine_double fuel' n (k * 2)%Z (double_half dur)
      else Returned (k, dur)
  end.

(** The state of the loop, in exact arithmetic, after [j] rounds. *)
Fixpoint PDur_refine_state (j : nat) (k : Z) (dur : Q) : Z * Q :=
  match j with
  | O => (k, dur)
  | S j' => PDur_refine_state j' (k * 2)%Z (dur / 2)
  end.

(** and the rest of [PDur]:
<<
    pattern = Pattern(PulsesToDurations( EuclidsAlgorithm(n, k) ))
    if start != 0:
        pattern = pattern.rotate(int(start))
    return pattern * dur
>> *)
Definition PDur_finish (n k start : Z) (dur : Q) : outcome (list Q) :=
  pulses <- EuclidsAlgorithm n k ;;
  let pattern := Pattern (PulsesToDurations pulses) in
  let pattern := if (start =? 0)%Z then pattern else rotate pattern start in
  Returned (scale pattern dur).

Definition PDur (fuel : nat) (n k start : Z) (dur : Q) : outcome (list Q) :=
  '(k', dur') <- PDur_refine fuel n k dur ;;
  PDur_finish n k' start dur'.

Definition start_default : Z := 0.
Definition dur_default : Q := 1 # 4.

(** [PDur( *item )]: the elements of a tuple or PGroup as the positional
    arguments [n, k, start, dur] of [PDur], numbers as in the docstring's
    [(3,8)]. *)
Definition PDur_star (fuel : nat) (item : value) : outcome (list Q) :=
  args <- star_args item ;;
  match args with
  | [] | [_] => Raised TypeError
  | [VInt n; VInt k] => PDur fuel n k start_default dur_default
  | [VInt n; VInt k; VInt start] => PDur fuel n k start dur_default
  | [VInt n; VInt k; VInt start; d] => dur <- number d ;; PDur fuel n k start dur
  | _ :: _ :: _ :: _ :: _ :: _ => Raised TypeError
  | _ => Raised NotModelled
  end.

(** [PRhythm(durations)]:
<<
    if len(durations) == 1:
        item = durations[0]
        if isinstance(item, (tuple, PGroup)):
            return PDur( *item )
        else:
            return durations
    else:
        durations = asStream(durations).data
        output = Pattern()
        for i in range(len( asStream(durations).data ) ):
            item = durations[i]
            if isinstance(item, (list, Pattern)):
                value = PRhythm(item)
            elif isinstance(item, (tuple, PGroup)):
                dur   = PDur( *item )
                value = PGroup(sum(dur)|dur.accum()[1:])
            else:
                value = item
            output.append(value)
        return output
>>
    [durations] is a list or a Pattern, held at a location of the store;
    the result is the location of the container that is returned, with
    the store as the call leaves it. *)
Fixpoint PRhythm (fuel : nat) (h : heap) (durations : loc) : outcome (loc * heap) :=
  match fuel with
  | O => OutOfFuel
  | S fuel' =>
      match deref h durations with
      | None => Raised NotModelled
      | Some o =>
          match data o with
          | [item] =>
              if is_tuple_or_PGroup item then
                pat <- PDur_star fuel' item ;;
                Returned (alloc h (mk_object KPattern (map VFloat pat)))
              else Returned (durations, h)
          | items =>
              let durations' := asStream items in
              let '(output, h0) := alloc h (mk_object KPattern []) in
              h' <- for_each
                      (fun h1 item =>
                         '(value, h2) <-
                           match item with
                           | VRef l =>
                               '(r, h2) <- PRhythm fuel' h1 l ;;
                               Returned (VRef r, h2)
                           | VTuple _ | VGroup _ =>
                               dur <- PDur_star fuel' item ;;
                               Returned
                                 (PGroup (VTuple (map VFloat (sum dur :: tl (accum dur)))),
                                  h1)
                           | _ => Returned (item, h1)
                           end ;;
                         append h2 output value)
                      durations' h0 ;;
              Returned (output, h')
          end
      end
  end.

(** [PJoin(patterns)]:
<<
    data = []
    for pattern in patterns:
        data.extend(pattern)
    return Pattern(data)
>> *)
Definition PJoin {A : Type} (patterns : list (list A)) : list A :=
  Pattern (fold_left (fun data pattern => data ++ pattern) patterns []).

(** [MAX_SIZE = 2048] *)
Definition MAX_SIZE : Z := 2048.

(** [P[args]] as the pattern functions below use it, on a Pattern (returned
    as it is) or on a list that holds no slice (the Pattern of its items):
<<
    if isinstance(args, Pattern):
        return args
    ...
    elif hasattr(args, '__iter__') and not isinstance(args, (str, bytes, ...)):
        data = []
        for item in args:
            if type(item) is slice: data.extend(sliceToRange(item))
            else: data.append(item)
    ...
    return Pattern(data)
>> *)
Definition P_getitem {A : Type} (args : list A) : list A :=
  Pattern (fold_left (fun data item => data ++ [item]) args []).

(** [PPairs(seq, func=lambda n: 8-n)]:
<<
    i = 0
    data = []
    for item in seq:
        data.append(item)
        data.append(func(item))
        i += 1
        if i >= MAX_SIZE:
            break
    return Pattern(data)
>> *)
Fixpoint PPairs_loop {A : Type} (func : A -> A) (seq : list A) (i : Z) (data : list A)
  : list A :=
  match seq with
  | [] => data
  | item :: rest =>
      let data := data ++ [item] in
      let data := data ++ [func item] in
      let i := (i + 1)%Z in
      if (MAX_SIZE <=? i)%Z then data else PPairs_loop func rest i data
  end.

Definition PPairs {A : Type} (seq : list A) (func : A -> A) : list A :=
  Pattern (PPairs_loop func seq 0 []).

(** [func=lambda n: 8-n] *)
Definition PPairs_func_default (n : Z) : Z := 8 - n.

(** [PZip(pat1, pat2, patN...)]:
<<
    l, p = [], []
    for pat in [pat1, pat2] + list(patN):
        p.append(P[pat])
        l.append(len(p[-1]))
    length = LCM of l
    return Pattern([tuple(pat[i] for pat in p) for i in range(length)])
>>
    A tuple is the list of its components; [pat[i]] on a Pattern is the
    modular index. *)
Definition PZip {A : Type} (pat1 pat2 : list A) (patN : list (list A))
  : outcome (list (list A)) :=
  let '(l, p) :=
    fold_left (fun '(l, p) pat =>
                 let p := p ++ [P_getitem pat] in
                 let l := l ++ [length (last p [])] in
                 (l, p))
              ([pat1; pat2] ++ patN) ([], []) in
  length <- LCM l ;;
  data <- for_each
            (fun data i =>
               tuple <- for_each (fun t pat => x <- modi pat i ;; Returned (t ++ [x])) p [] ;;
               Returned (data ++ [tuple]))
            (seq 0 length) [] ;;
  Returned (Pattern data).

(** [PZip2(pat1, pat2, rule=lambda a, b: True)]:
<<
    length = LCM(len(pat1), len(pat2))
    data = []
    i = 0
    while i < length:
        a, b = modi(pat1,i), modi(pat2,i)
        if rule(a, b):
            data.append((a,b))
        i += 1
    return Pattern(data)
>>
    [todo] is [length - i], the rounds the loop still has to run. *)
Fixpoint PZip2_loop {A B : Type} (rule : A -> B -> bool) (pat1 : list A) (pat2 : list B)
         (todo i : nat) (data : list (A * B)) : outcome (list (A * B)) :=
  match todo with
  | O => Returned data
  | S todo' =>
      a <- modi pat1 i ;;
      b <- modi pat2 i ;;
      let data := if rule a b then data ++ [(a, b)] else data in
      PZip2_loop rule pat1 pat2 todo' (S i) data
  end.

Definition PZip2 {A B : Type} (pat1 : list A) (pat2 : list B) (rule : A -> B -> bool)
  : outcome (list (A * B)) :=
  length <- LCM [length pat1; length pat2] ;;
  data <- PZip2_loop rule pat1 pat2 length 0 [] ;;
  Returned (Pattern data).

(** [rule=lambda a, b: True] *)
Definition PZip2_rule_default {A B : Type} (a : A) (b : B) : bool := true.

(** [PBeat(string, start=0, dur=0.5)]:
<<
    data = [int(char != " ") for char in list(string)]
    pattern = Pattern(PulsesToDurations( data ))
    if start != 0:
        pattern = pattern.rotate(int(start))
    return pattern * dur
>> *)
Definition PBeat (string : String.string) (start : Z) (dur : Q) : list Q :=
  let data := map (fun char => if Ascii.eqb char Ascii.Space then 0%Z else 1%Z)
                  (String.list_ascii_of_string string) in
  let pattern := Pattern (PulsesToDurations data) in
  let pattern := if (start =? 0)%Z then pattern else rotate pattern start in
  scale pattern dur.

(** The integers that convert to a double: those of magnitude below
    [2^1024 - 2^970], which would round to [2^1024]. *)
Definition float_max_int : Z := 2 ^ 1024 - 2 ^ 970.

(** [x / y] with a float [x] and an integer [y]: [y] is converted to a
    double, which overflows for a large one, and dividing by zero fails. *)
Definition py_div (x : Q) (y : Z) : outcome Q :=
  if (y =? 0)%Z then Raised ZeroDivisionError
  else if (float_max_int <=? Z.abs y)%Z then Raised OverflowError
  else Returned (x / inject_Z y).

(** [PQuicken(dur=1/2, stepsize=3, steps=6)], the loops
<<
    delay = []
    count = 0
    for i in range(steps):
        for j in range(stepsize-1):
            delay.append( count )
            count += dur / stepsize
        dur /= stepsize
>>
    on the state [(delay, count, dur)]. *)
Definition PQuicken_inner (dur : Q) (stepsize : Z) (delay : list Q) (count : Q)
  : outcome (list Q * Q) :=
  for_each (fun '(delay, count) (j : Z) =>
              q <- py_div dur stepsize ;;
              Returned (delay ++ [count], count + q))
           (range (stepsize - 1)) (delay, count).

Definition PQuicken_delay (dur : Q) (stepsize steps : Z) : outcome (list Q * Q * Q) :=
  for_each (fun '(delay, count, dur) (i : Z) =>
              '(delay, count) <- PQuicken_inner dur stepsize delay count ;;
              dur <- py_div dur stepsize ;;
              Returned (delay, count, dur))
           (range steps) ([], 0, dur).

(** and [return PGroup(delay)]. *)
Definition PQuicken (dur : Q) (stepsize steps : Z) : outcome value :=
  '(delay, _, _) <- PQuicken_delay dur stepsize steps ;;
  Returned (PGroup (VTuple (map VFloat delay))).

(** [PStutter] as the decorator calls it, on the resolved positional
    arguments [x] and [n=2]; [range(n)] needs an integer. *)
Definition PStutter_args (args : list value) : outcome (list value) :=
  match args with
  | [x] => Returned (PStutter x 2)
  | [x; VInt n] => Returned (PStutter x n)
  | _ => Raised TypeError
  end.

End Sequences.

Import Sequences.

(* ================================================================== *)
(** ** Reference notions used in the statements *)
(* ================================================================== *)

(** The round-robin interleaving by modular index: round [i] takes element
    [i mod len] of every input, in the order of the inputs. *)
Definition round_robin {A : Type} (d : A) (inputs : list (list A)) (rounds : nat) : list A :=
  flat_map (fun i => map (fun s => nth (i mod length s) s d) inputs) (seq 0 rounds).

(** [join([g(element_at(p,0)), ..., g(element_at(p,L-1))])]: the per-call
    results are computed in order, then joined. *)
Definition per_call_results {V R : Type} (g : V -> outcome (list R)) (p : list V)
  : outcome (list (list R)) :=
  for_each (fun rs i => x <- modi p i ;; r <- g x ;; Returned (rs ++ [r]))
           (seq 0 (length p)) [].

Definition join_per_call {V R : Type} (g : V -> outcome (list R)) (p : list V)
  : outcome (list R) :=
  rs <- per_call_results g p ;; Returned (PJoin rs).

(** A number: an item that [PRhythm] passes through as it is. *)
Definition is_number (item : value) : bool :=
  match item with
  | VInt _ | VFloat _ => true
  | _ => false
  end.

(** The pair that round [j] of an alignment of two patterns reads. *)
Definition pair_at {A B : Type} (pat1 : list A) (pat2 : list B) (d1 : A) (d2 : B) (j : nat)
  : A * B :=
  (nth (j mod length pat1) pat1 d1, nth (j mod length pat2) pat2 d2).

(** [2^h], to count halvings. *)
Definition pow2 (h : nat) : Q := inject_Z (2 ^ Z.of_nat h).

(* ================================================================== *)
(** ** Loops *)
(* ================================================================== *)

Section ForEach.

Context {A S : Type}.

Lemma for_each_app (body : S -> A -> outcome S) (xs ys : list A) (s : S) :
  for_each body (xs ++ ys) s = bind (for_each body xs s) (for_each body ys).
Proof.
  revert s; induction xs as [|x xs IH]; intros s; simpl; [reflexivity|].
  destruct (body s x); simpl; auto.
Qed.

Lemma for_each_ext (body body' : S -> A -> outcome S) (xs : list A) (s : S) :
  (forall s' x, In x xs -> body s' x = body' s' x) ->
  for_each body xs s = for_each body' xs s.
Proof.
  revert s; induction xs as [|x xs IH]; intros s Hb; simpl; [reflexivity|].
  rewrite Hb by (left; reflexivity).
  destruct (body' s x); simpl; auto.
  apply IH. intros; apply Hb; right; assumption.
Qed.

End ForEach.

(** A loop that appends one computed element per round. *)
Lemma for_each_collect {A B : Type} (g : A -> outcome B) (h : A -> B)
      (xs : list A) (acc : list B) :
  (forall x, In x xs -> g x = Returned (h x)) ->
  for_each (fun acc x => y <- g x ;; Returned (acc ++ [y])) xs acc
  = Returned (acc ++ map h xs).
Proof.
  revert acc; induction xs as [|x xs IH]; intros acc Hg; simpl.
  - now rewrite app_nil_r.
  - rewrite Hg by (left; reflexivity). simpl.
    rewrite IH by (intros; apply Hg; right; assumption).
    now rewrite <- app_assoc.
Qed.

Lemma modi_nth {A : Type} (d : A) (array : list A) (i : nat) :
  array <> [] -> modi array i = Returned (nth (i mod length array) array d).
Proof.
  intros Hne. unfold modi.
  destruct array as [|a rest]; [congruence|].
  cbn [length].
  assert (Hlt : (i mod S (length rest) < length (a :: rest))%nat)
    by (cbn [length]; apply Nat.mod_upper_bound; discriminate).
  destruct (nth_error (a :: rest) (i mod S (length rest))) eqn:E.
  - f_equal. symmetry. now apply nth_error_nth.
  - apply nth_error_None in E. lia.
Qed.

(* ================================================================== *)
(** ** [PAlt] *)
(* ================================================================== *)

Lemma LCM_nonempty (lens : list nat) :
  lens <> [] -> Forall (fun n => n <> 0%nat) lens ->
  LCM lens = Returned (fold_right Nat.lcm 1%nat lens).
Proof.
  intros Hne Hpos. unfold LCM. destruct lens as [|n rest]; [congruence|].
  replace (existsb (Nat.eqb 0) (n :: rest)) with false; [reflexivity|].
  symmetry. apply not_true_is_false. intros H. apply existsb_exists in H.
  destruct H as [x [Hin Hx]]. apply Nat.eqb_eq in Hx. subst x.
  rewrite Forall_forall in Hpos. now apply (Hpos 0%nat).
Qed.

(** On inputs none of which is empty, [PAlt] is the round-robin interleaving
    over [LCM] rounds: one element of every input per round. *)
Lemma PAlt_round_robin {A : Type} (d : A) (pat1 pat2 : list A) (patN : list (list A)) :
  Forall (fun s => s <> []) (pat1 :: pat2 :: patN) ->
  PAlt pat1 pat2 patN
  = Returned (round_robin d (pat1 :: pat2 :: patN)
                (fold_right Nat.lcm 1%nat (map (@length A) (pat1 :: pat2 :: patN)))).
Proof.
  intros Hne. unfold PAlt, asStream, Pattern. rewrite map_id.
  change ([pat1; pat2] ++ patN) with (pat1 :: pat2 :: patN).
  set (item := pat1 :: pat2 :: patN) in *.
  rewrite LCM_nonempty.
  2: { subst item; discriminate. }
  2: { rewrite Forall_forall in *. intros n Hin. apply in_map_iff in Hin.
       destruct Hin as [s [<- Hs]]. specialize (Hne s Hs).
       destruct s; [congruence|discriminate]. }
  cbn [bind]. set (L := fold_right Nat.lcm 1%nat (map (@length A) item)).
  clearbody L. clearbody item.
  assert (Hrounds : forall rounds data,
    for_each (fun data n =>
                for_each (fun data i => x <- modi i n ;; Returned (data ++ [x])) item data)
             rounds data
    = Returned (data ++ flat_map (fun i => map (fun s => nth (i mod length s) s d) item) rounds)).
  { induction rounds as [|n rounds IH]; intros data; simpl.
    - now rewrite app_nil_r.
    - rewrite (for_each_collect (fun i => modi i n) (fun s => nth (n mod length s) s d)).
      + simpl. rewrite IH. now rewrite <- app_assoc.
      + intros s Hs. apply modi_nth. rewrite Forall_forall in Hne. now apply Hne. }
  rewrite Hrounds. reflexivity.
Qed.

(** C1, the claim as stated fails: the Sequence that [PAlt] returns for
    [[0,1,2]] and [[3,4]] does not have length 6. *)
Lemma PAlt_012_34_length_not_6 :
  ~ (exists out, PAlt [0; 1; 2]%Z [3; 4]%Z [] = Returned out /\ length out = 6%nat).
Proof.
  intros [out [H Hlen]]. vm_compute in H. inversion H; subst out. discriminate Hlen.
Qed.

(** C1, amended: [PAlt] applied to [[0,1,2]] and [[3,4]] returns the
    round-robin-by-modular-index interleaving of both inputs over
    LCM(3,2) = 6 rounds, one element of each input per round, that is the
    Sequence [[0,3,1,4,2,3,0,4,1,3,2,4]] of length 2 * 6 = 12. *)
Theorem PAlt_012_34_interleaves :
  exists out,
    PAlt [0; 1; 2]%Z [3; 4]%Z [] = Returned out
    /\ out = round_robin 0%Z [[0; 1; 2]; [3; 4]]%Z (Nat.lcm 3 2)
    /\ out = [0; 3; 1; 4; 2; 3; 0; 4; 1; 3; 2; 4]%Z
    /\ length out = (2 * Nat.lcm 3 2)%nat
    /\ Nat.lcm 3 2 = 6%nat.
Proof.
  eexists. split.
  - apply (PAlt_round_robin 0%Z). repeat constructor; discriminate.
  - repeat split; reflexivity.
Qed.

(* ================================================================== *)
(** ** [P()] *)
(* ================================================================== *)

(** C4, the claim as stated fails: called with no value, [P()] does not
    return anything, an empty Sequence included. *)
Lemma P_call_no_values_fails :
  ~ (exists v, P_call [] = Returned v).
Proof. intros [v H]. discriminate H. Qed.

(** C4, amended: calling [P()] with zero values fails with the IndexError
    of [args[0]] on the empty argument tuple and produces no value; with
    one value it returns the PGroup made from that value, with more than one
    the PGroup made from the tuple of the values. *)
Theorem P_call_cases (args : list value) :
  P_call args =
    match args with
    | [] => Raised IndexError
    | [a] => Returned (PGroup a)
    | _ :: _ :: _ => Returned (PGroup (VTuple args))
    end.
Proof. destruct args as [|a [|b rest]]; reflexivity. Qed.

(* ================================================================== *)
(** ** [PDur] *)
(* ================================================================== *)

(** One round of the refinement keeps [k * dur]. *)
Lemma PDur_refine_round (k : Z) (dur : Q) :
  inject_Z (k * 2) * (dur / 2) == inject_Z k * dur.
Proof. rewrite inject_Z_mult. field. Qed.

Lemma PDur_refine_state_product (j : nat) (k : Z) (dur : Q) :
  inject_Z (fst (PDur_refine_state j k dur)) * snd (PDur_refine_state j k dur)
  == inject_Z k * dur.
Proof.
  revert k dur; induction j as [|j IH]; intros k dur; simpl.
  - reflexivity.
  - rewrite IH. apply PDur_refine_round.
Qed.

(** With [k >= 1] the loop stops: doubling [k] overtakes [n]. *)
Lemma PDur_refine_stops (m : nat) :
  forall (n k : Z) (dur : Q),
    (1 <= k)%Z -> (n - k <= Z.of_nat m)%Z ->
    exists j : nat,
      (n <= fst (PDur_refine_state j k dur))%Z
      /\ forall fuel, (j < fuel)%nat ->
                      PDur_refine fuel n k dur = Returned (PDur_refine_state j k dur).
Proof.
  induction m as [|m IH]; intros n k dur Hk Hm.
  - exists 0%nat. simpl. split; [lia|].
    intros [|fuel] Hf; [lia|]. simpl.
    destruct (Z.ltb_spec k n); [lia|reflexivity].
  - destruct (Z.ltb_spec k n) as [Hlt|Hge].
    + destruct (IH n (k * 2)%Z (dur / 2)) as [j [Hj Hrun]]; [lia|lia|].
      exists (S j). simpl. split; [exact Hj|].
      intros [|fuel] Hf; [lia|]. simpl.
      destruct (Z.ltb_spec k n); [|lia]. apply Hrun. lia.
    + exists 0%nat. simpl. split; [lia|].
      intros [|fuel] Hf; [lia|]. simpl.
      destruct (Z.ltb_spec k n); [lia|reflexivity].
Qed.

(** With [k <= 0 < n - k] the loop never stops: [k] stays below [n]. *)
Lemma PDur_refine_runs_forever (fuel : nat) :
  forall (n k : Z) (dur : Q),
    (k <= 0)%Z -> (k < n)%Z -> PDur_refine fuel n k dur = OutOfFuel.
Proof.
  induction fuel as [|fuel IH]; intros n k dur Hk Hn; simpl; [reflexivity|].
  destruct (Z.ltb_spec k n); [|lia]. apply IH; lia.
Qed.

Lemma PDur_no_refinement (fuel : nat) (n k start : Z) (dur : Q) :
  (n <= k)%Z -> PDur (S fuel) n k start dur = PDur_finish n k start dur.
Proof.
  intros Hnk. unfold PDur. simpl.
  destruct (Z.ltb_spec k n); [lia|reflexivity].
Qed.



(** *** The loop on doubles *)

Lemma double_grid_nonzero : ~ double_grid == 0.
Proof. unfold double_grid. intros H. vm_compute in H. discriminate H. Qed.

(** Halving is exact on an even multiple of the smallest double. *)
Lemma double_half_exact (d : Q) (z : Z) :
  d == inject_Z (2 * z) / double_grid -> double_half d = d / 2.
Proof.
  intros Hd. unfold double_half.
  assert (Hu : Qfloor (d * double_grid) = (2 * z)%Z).
  { rewrite <- (Qfloor_Z (2 * z)). apply Qfloor_comp.
    rewrite Hd. field. apply double_grid_nonzero. }
  rewrite Hu. rewrite Z.even_mul. reflexivity.
Qed.





(** At the default [dur] and for [PDur(5, 2)]: two rounds, both exact. *)
Example PDur_refine_double_5_2 :
  PDur_refine_double 3 5 2 (1 # 4) = Returned (8%Z, (1 # 4) / 2 / 2)
  /\ (1 # 4) == inject_Z (2 ^ 1070 * 2 ^ Z.of_nat 2) / double_grid.
Proof.
  split.
  - cbn [PDur_refine_double]. change (2 <? 5)%Z with true. change (2 * 2 <? 5)%Z with true.
    change (2 * 2 * 2 <? 5)%Z with false. cbn iota.
    rewrite (@double_half_exact (1 # 4) (2 ^ 1071)) by (vm_compute; reflexivity).
    rewrite (@double_half_exact ((1 # 4) / 2) (2 ^ 1070)) by (vm_compute; reflexivity).
    reflexivity.
  - vm_compute. reflexivity.
Qed.


(** What those two calls do. *)
Lemma PDur_1_0_runs_forever (fuel : nat) :
  PDur fuel 1 0 start_default dur_default = OutOfFuel.
Proof. unfold PDur. now rewrite PDur_refine_runs_forever by lia. Qed.

Lemma PDur_3_8_dur_zero (fuel : nat) :
  exists out, PDur (S fuel) 3 8 start_default 0 = Returned out /\ num_eq out [0; 0; 0].
Proof.
  rewrite PDur_no_refinement by lia. eexists. split; [reflexivity|].
  repeat constructor; reflexivity.
Qed.



(** C7: with the defaults [start=0] and [dur=0.25], [PDur(3, 8)] returns
    [[0.75, 0.75, 0.5]] and [PDur(5, 16)] returns
    [[0.75, 0.75, 0.75, 0.75, 1]]. *)
Theorem PDur_3_8_and_5_16 :
  (forall fuel, exists out,
      PDur (S fuel) 3 8 start_default dur_default = Returned out
      /\ num_eq out [3 # 4; 3 # 4; 1 # 2])
  /\ (forall fuel, exists out,
         PDur (S fuel) 5 16 start_default dur_default = Returned out
         /\ num_eq out [3 # 4; 3 # 4; 3 # 4; 3 # 4; 1]).
Proof.
  split; intros fuel; rewrite PDur_no_refinement by lia;
    (eexists; split; [reflexivity|]); repeat constructor; reflexivity.
Qed.

(* ================================================================== *)
(** ** [PRhythm] *)
(* ================================================================== *)

(** C10: when [durations] holds exactly one element and that element is
    neither a tuple nor a PGroup, [PRhythm(durations)] returns the container
    it was given: the same location, in a store that the call has left as it
    was.  Nothing is expanded, recursed into or allocated. *)
Theorem PRhythm_single_plain_item
        (fuel : nat) (h : heap) (durations : loc) (o : object) (item : value) :
  deref h durations = Some o ->
  data o = [item] ->
  is_tuple_or_PGroup item = false ->
  PRhythm (S fuel) h durations = Returned (durations, h).
Proof.
  intros Hobj Hdata Hplain. simpl. rewrite Hobj, Hdata, Hplain. reflexivity.
Qed.

Lemma PRhythm_single_plain_item_witness :
  PRhythm 1 [mk_object KList [VRef 1%nat]; mk_object KList [VInt 1; VInt 2]] 0%nat
  = Returned (0%nat, [mk_object KList [VRef 1%nat]; mk_object KList [VInt 1; VInt 2]]).
Proof.
  apply (@PRhythm_single_plain_item 0
           [mk_object KList [VRef 1%nat]; mk_object KList [VInt 1; VInt 2]]
           0%nat (mk_object KList [VRef 1%nat]) (VRef 1%nat)); reflexivity.
Defined.

(* ================================================================== *)
(** ** [PStretch] *)
(* ================================================================== *)

Lemma stretch_elements {A : Type} (self : list (element A)) (size : Z) :
  stretch self size = Returned (map (element_at self) (seq 0 (Z.to_nat size))).
Proof.
  unfold stretch.
  rewrite (for_each_collect (fun n => Returned (element_at self n)) (element_at self)).
  - reflexivity.
  - reflexivity.
Qed.

Lemma element_at_nonempty {A : Type} (d : element A) (array : list (element A)) (i : nat) :
  array <> [] -> element_at array i = nth (i mod length array) array d.
Proof. intros Hne. unfold element_at. now rewrite (modi_nth d i Hne). Qed.

(** Reading a list back index by index gives the list. *)
Lemma map_nth_seq_id {A : Type} (d : A) (l : list A) :
  map (fun n => nth (n mod length l) l d) (seq 0 (length l)) = l.
Proof.
  apply (nth_ext _ _ d d).
  - now rewrite length_map, length_seq.
  - intros i Hi. rewrite length_map, length_seq in Hi.
    rewrite (nth_indep _ d (nth (0 mod length l) l d))
      by (now rewrite length_map, length_seq).
    rewrite (map_nth (fun n => nth (n mod length l) l d) (seq 0 (length l)) 0%nat i).
    rewrite seq_nth by exact Hi. simpl. now rewrite Nat.mod_small.
Qed.

(** C8: for every sequence [s], the empty one included, and every
    [size >= 1], [PStretch(s, size)] returns a Sequence of exactly [size]
    elements, and stretching the result to [size] again returns it
    unchanged; when [s] has an element to repeat, element [i] of the result
    is [s[i mod len(s)]], the cyclic repetition of [s] cut at [size]. *)
Theorem PStretch_size_idempotent {A : Type} (s : list (element A)) (size : Z) :
  (1 <= size)%Z ->
  exists out,
    PStretch s size = Returned out
    /\ length out = Z.to_nat size
    /\ (s <> [] ->
        forall i, (i < Z.to_nat size)%nat ->
                  nth_error out i = nth_error s (i mod length s))
    /\ PStretch out size = Returned out.
Proof.
  intros Hsize.
  set (out := map (element_at s) (seq 0 (Z.to_nat size))).
  assert (Hlen : length out = Z.to_nat size)
    by (unfold out; now rewrite length_map, length_seq).
  assert (Hout : out <> []).
  { intros E. rewrite E in Hlen. simpl in Hlen. lia. }
  assert (Hrun : stretch s size = Returned out) by apply stretch_elements.
  assert (Hcyc : s <> [] ->
                 forall i, (i < Z.to_nat size)%nat ->
                           nth_error out i = nth_error s (i mod length s)).
  { intros Hne i Hi. unfold out.
    rewrite nth_error_map, nth_error_seq.
    destruct (Nat.ltb_spec i (Z.to_nat size)); [|lia]. cbn [option_map Nat.add].
    rewrite (element_at_nonempty (Nested []) i Hne).
    symmetry. apply nth_error_nth'.
    apply Nat.mod_upper_bound. destruct s; [congruence|discriminate]. }
  clearbody out.
  exists out. unfold PStretch, Pattern. repeat split; auto.
  rewrite stretch_elements. f_equal. rewrite <- Hlen.
  etransitivity; [|apply (map_nth_seq_id (Nested []) out)].
  apply map_ext. intros n. now apply element_at_nonempty.
Qed.

Lemma PStretch_size_idempotent_witness :
  exists out,
    PStretch [Atom 0%Z; Atom 1%Z; Atom 2%Z] 5 = Returned out
    /\ length out = Z.to_nat 5
    /\ ([Atom 0%Z; Atom 1%Z; Atom 2%Z] <> [] ->
        forall i, (i < Z.to_nat 5)%nat ->
                  nth_error out i
                  = nth_error [Atom 0%Z; Atom 1%Z; Atom 2%Z]
                              (i mod length [Atom 0%Z; Atom 1%Z; Atom 2%Z]))
    /\ PStretch out 5 = Returned out.
Proof.
  apply (@PStretch_size_idempotent Z [Atom 0%Z; Atom 1%Z; Atom 2%Z] 5). lia.
Defined.

(** On the empty Sequence too: three elements, and stretching again
    changes nothing. *)
Example PStretch_empty :
  exists out,
    PStretch (@nil (element Z)) 3 = Returned out
    /\ length out = 3%nat
    /\ PStretch out 3 = Returned out.
Proof. eexists. repeat split; reflexivity. Qed.

(* ================================================================== *)
(** ** The broadcast rule *)
(* ================================================================== *)

Section Broadcast.

Context {V R : Type}.
Variable exempt : bool.
Variable wrap : list R -> R.
Variable f : list V -> outcome (list R).

Lemma seq_lengths_scalars (vs : list V) : seq_lengths (map Scalar vs) = [].
Proof. induction vs as [|v vs IH]; simpl; auto. Qed.

Lemma seq_lengths_one (pre post p : list V) :
  seq_lengths (map Scalar pre ++ SeqArg p :: map Scalar post) = [length p].
Proof.
  unfold seq_lengths. rewrite flat_map_app. simpl.
  fold (seq_lengths (map Scalar pre)). fold (seq_lengths (map Scalar post)).
  now rewrite !seq_lengths_scalars.
Qed.

Lemma resolve_scalars (i : nat) (vs acc : list V) :
  for_each (fun acc a => v <- resolve i a ;; Returned (acc ++ [v])) (map Scalar vs) acc
  = Returned (acc ++ vs).
Proof.
  revert acc; induction vs as [|v vs IH]; intros acc; simpl.
  - now rewrite app_nil_r.
  - rewrite IH. now rewrite <- app_assoc.
Qed.

Lemma resolve_all_scalars (i : nat) (vs : list V) :
  resolve_all i (map Scalar vs) = Returned vs.
Proof. unfold resolve_all. now rewrite resolve_scalars. Qed.

Lemma resolve_all_one (i : nat) (pre post p : list V) :
  resolve_all i (map Scalar pre ++ SeqArg p :: map Scalar post)
  = x <- modi p i ;; Returned (pre ++ x :: post).
Proof.
  unfold resolve_all. rewrite for_each_app, resolve_scalars. simpl.
  destruct (modi p i) as [x| |]; simpl; auto.
  rewrite resolve_scalars. now rewrite <- app_assoc.
Qed.

(** Called on scalars only, the generator is invoked once. *)
Lemma loop_pattern_func_scalars (vs : list V) :
  loop_pattern_func exempt wrap f (map Scalar vs) = f vs.
Proof.
  unfold loop_pattern_func. now rewrite seq_lengths_scalars, resolve_all_scalars.
Qed.

(** Appending every round's result is joining the collected results. *)
Lemma for_each_join {I : Type} (G : I -> outcome (list R)) (xs : list I)
      (rs : list (list R)) :
  for_each (fun pat i => r <- G i ;; Returned (pat ++ r)) xs (PJoin rs)
  = rs' <- for_each (fun rs i => r <- G i ;; Returned (rs ++ [r])) xs rs ;;
    Returned (PJoin rs').
Proof.
  revert rs; induction xs as [|x xs IH]; intros rs; simpl; [reflexivity|].
  destruct (G x) as [r| |]; simpl; auto.
  rewrite <- IH. f_equal.
  unfold PJoin, Pattern. now rewrite fold_left_app.
Qed.

(** C9: when one parameter of a broadcast-wrapped generator is a
    Sequence [p] with at least one element and all the others are
    scalars, the call returns, element for element, the join of the
    per-call results [g(element_at(p,0)), ..., g(element_at(p,L-1))], [L]
    being the length of [p]; each per-call result enters the join as it
    is for a generator exempt from Group-wrapping and as one Group-like
    step otherwise.  Calls that fail, fail alike on both sides. *)
Theorem loop_pattern_func_broadcast (pre post p : list V) :
  p <> [] ->
  loop_pattern_func exempt wrap f (map Scalar pre ++ SeqArg p :: map Scalar post)
  = join_per_call
      (fun x =>
         r <- loop_pattern_func exempt wrap f
                (map Scalar pre ++ Scalar x :: map Scalar post) ;;
         Returned (step_of exempt wrap r))
      p.
Proof.
  intros Hp.
  assert (Hone : forall x,
    loop_pattern_func exempt wrap f (map Scalar pre ++ Scalar x :: map Scalar post)
    = f (pre ++ x :: post)).
  { intros x.
    change (Scalar x :: map Scalar post) with (map (@Scalar V) (x :: post)).
    rewrite <- map_app. apply loop_pattern_func_scalars. }
  unfold loop_pattern_func at 1. rewrite seq_lengths_one.
  rewrite LCM_nonempty; [|discriminate|].
  2: { repeat constructor. destruct p; [congruence|discriminate]. }
  cbn [bind fold_right]. rewrite Nat.lcm_1_r.
  unfold join_per_call, per_call_results.
  set (G := fun i => x <- modi p i ;; r <- f (pre ++ x :: post) ;;
                     Returned (step_of exempt wrap r)).
  rewrite (for_each_ext _ (fun pat i => r <- G i ;; Returned (pat ++ r))).
  2: { intros pat i _. rewrite resolve_all_one. unfold G.
       destruct (modi p i) as [x| |]; simpl; auto.
       destruct (f (pre ++ x :: post)); reflexivity. }
  rewrite (for_each_ext
             (fun rs i => x <- modi p i ;;
                          r <- (r <- loop_pattern_func exempt wrap f
                                      (map Scalar pre ++ Scalar x :: map Scalar post) ;;
                                Returned (step_of exempt wrap r)) ;;
                          Returned (rs ++ [r]))
             (fun rs i => r <- G i ;; Returned (rs ++ [r]))).
  2: { intros rs i _. unfold G.
       destruct (modi p i) as [x| |]; simpl; auto.
       rewrite Hone. destruct (f (pre ++ x :: post)); reflexivity. }
  apply (for_each_join G (seq 0 (length p)) []).
Qed.

End Broadcast.

Lemma loop_pattern_func_broadcast_witness :
  loop_pattern_func true (fun _ => 0%Z)
    (fun args => match args with
                 | [x; n] => Returned (PStutter x n)
                 | _ => Raised TypeError
                 end)
    (map Scalar [] ++ SeqArg [1; 2]%Z :: map Scalar [2%Z])
  = join_per_call
      (fun x =>
         r <- loop_pattern_func true (fun _ => 0%Z)
                (fun args => match args with
                             | [x; n] => Returned (PStutter x n)
                             | _ => Raised TypeError
                             end)
                (map Scalar [] ++ Scalar x :: map Scalar [2%Z]) ;;
         Returned (step_of true (fun _ => 0%Z) r))
      [1; 2]%Z.
Proof.
  apply (@loop_pattern_func_broadcast Z Z true (fun _ => 0%Z)
           (fun args => match args with
                        | [x; n] => Returned (PStutter x n)
                        | _ => Raised TypeError
                        end)
           [] [2%Z] [1; 2]%Z).
  discriminate.
Defined.

(** The broadcast of [PStutter] and of [PStep] (flat, as the decorator of
    the source concatenates): [PStutter([1,2], 2)], [PStutter(5, [1,2])] and
    [PStep([2,3], 1, 0)]. *)
Example PStutter_PStep_broadcast :
  loop_pattern_func true (fun _ => 0%Z)
    (fun args => match args with
                 | [x; n] => Returned (PStutter x n)
                 | _ => Raised TypeError
                 end)
    [SeqArg [1; 2]%Z; Scalar 2%Z] = Returned [1; 1; 2; 2]%Z
  /\ loop_pattern_func true (fun _ => 0%Z)
       (fun args => match args with
                    | [x; n] => Returned (PStutter x n)
                    | _ => Raised TypeError
                    end)
       [Scalar 5%Z; SeqArg [1; 2]%Z] = Returned [5; 5; 5]%Z
  /\ loop_pattern_func true (fun _ => 0%Z)
       (fun args => match args with
                    | [n; value; default] => Returned (PStep n value default)
                    | _ => Raised TypeError
                    end)
       [SeqArg [2; 3]%Z; Scalar 1%Z; Scalar 0%Z] = Returned [0; 1; 0; 0; 1]%Z.
Proof. repeat split; reflexivity. Qed.

(* ================================================================== *)
(** ** [PSum] *)
(* ================================================================== *)

(** More fuel does not change what a loop that has returned returns. *)
Lemma PSum_guess_more_fuel (fuel : nat) :
  forall (n : Z) (total : Q) (data : list Q) (step : Q) (r : list Q * Q) (fuel' : nat),
    PSum_guess fuel n total data step = Returned r ->
    (fuel <= fuel')%nat ->
    PSum_guess fuel' n total data step = Returned r.
Proof.
  induction fuel as [|fuel IH]; intros n total data step r fuel' H Hle; simpl in H.
  - discriminate H.
  - destruct fuel' as [|fuel']; [lia|]. simpl.
    destruct (Qltb total (sum data)); [|exact H].
    apply IH with (1 := H). lia.
Qed.

Lemma PSum_fill_more_fuel (fuel : nat) :
  forall (n : Z) (total lim : Q) (data : list Q) (step : Q) (i : Z)
         (r : list Q) (fuel' : nat),
    PSum_fill fuel n total lim data step i = Returned r ->
    (fuel <= fuel')%nat ->
    PSum_fill fuel' n total lim data step i = Returned r.
Proof.
  induction fuel as [|fuel IH]; intros n total lim data step i r fuel' H Hle; simpl in H.
  - discriminate H.
  - destruct fuel' as [|fuel']; [lia|]. simpl.
    destruct (Qltb (sum data) total && Qle_bool lim step); [|exact H].
    destruct (Qltb total (sum data + step)).
    + apply IH with (1 := H). lia.
    + destruct (py_mod i n) as [j| |]; simpl in *; try discriminate H.
      destruct (add_at data j step) as [data'| |]; simpl in *; try discriminate H.
      apply IH with (1 := H). lia.
Qed.

Lemma PSum_more_fuel (fuel fuel' : nat) (n : Z) (total lim : Q) (out : list Q) :
  PSum fuel n total lim = Returned out ->
  (fuel <= fuel')%nat ->
  PSum fuel' n total lim = Returned out.
Proof.
  unfold PSum. intros H Hle.
  destruct (PSum_guess fuel n total [total + 1] 1) as [[data step]| |] eqn:E1;
    simpl in H; try discriminate H.
  rewrite (PSum_guess_more_fuel _ _ _ _ E1 Hle). simpl.
  destruct (PSum_fill fuel n total lim data step 0) as [data'| |] eqn:E2;
    simpl in H; try discriminate H.
  rewrite (PSum_fill_more_fuel _ _ _ _ _ _ E2 Hle). exact H.
Qed.

Lemma num_eqb_sound (xs ys : list Q) : num_eqb xs ys = true -> num_eq xs ys.
Proof.
  revert ys; induction xs as [|x xs IH]; intros [|y ys] H; simpl in H;
    try discriminate H; [constructor|].
  apply andb_prop in H. destruct H as [Hxy Hrest].
  constructor; [now apply Qeq_bool_iff | now apply IH].
Qed.

Lemma num_eqb_complete (xs ys : list Q) : num_eq xs ys -> num_eqb xs ys = true.
Proof.
  induction 1 as [|x y xs ys Hxy _ IH]; simpl; [reflexivity|].
  apply andb_true_intro. split; [now apply Qeq_bool_iff | exact IH].
Qed.

(** *** What [PSum] does guarantee *)

Lemma Qltb_lt (a b : Q) : Qltb a b = true <-> a < b.
Proof.
  unfold Qltb. rewrite negb_true_iff. split.
  - intros H. apply Qnot_le_lt. intros Hle. apply Qle_bool_iff in Hle. congruence.
  - intros H. apply not_true_is_false. intros Hle. apply Qle_bool_iff in Hle.
    now apply (Qlt_not_le _ _ H).
Qed.

Lemma Qltb_ge (a b : Q) : Qltb a b = false <-> b <= a.
Proof.
  unfold Qltb. rewrite negb_false_iff. apply Qle_bool_iff.
Qed.

Lemma fold_Qplus_acc (l : list Q) (a : Q) : fold_left Qplus l a == a + sum l.
Proof.
  unfold sum. revert a; induction l as [|x l IH]; intros a; simpl.
  - ring.
  - rewrite IH, (IH (0 + x)). ring.
Qed.

Lemma sum_cons (x : Q) (l : list Q) : sum (x :: l) == x + sum l.
Proof. unfold sum at 1. simpl. rewrite fold_Qplus_acc. ring. Qed.

Lemma sum_app (l1 l2 : list Q) : sum (l1 ++ l2) == sum l1 + sum l2.
Proof.
  induction l1 as [|x l1 IH]; simpl.
  - unfold sum at 2. simpl. ring.
  - rewrite !sum_cons, IH. ring.
Qed.

(** A uniform guess sums to its length times the element. *)
Lemma sum_uniform (s : Q) (l : list Q) :
  Forall (fun x => x == s) l -> sum l == inject_Z (Z.of_nat (length l)) * s.
Proof.
  induction 1 as [|x l Hx _ IH].
  - unfold sum. simpl. ring.
  - assert (Hx' : x == s) by exact Hx.
    cbn [length]. rewrite sum_cons, IH, Hx', Nat2Z.inj_succ.
    unfold Z.succ. rewrite inject_Z_plus. ring.
Qed.

Lemma skipn_nth_cons {A : Type} (d : A) (m : nat) :
  forall l : list A, (m < length l)%nat -> skipn m l = nth m l d :: skipn (S m) l.
Proof.
  induction m as [|m IH]; intros [|x l] Hm; simpl in *; try lia.
  - reflexivity.
  - apply IH. lia.
Qed.

Lemma add_at_in_range (data : list Q) (j : Z) (step : Q) :
  (0 <= j < Z.of_nat (length data))%Z ->
  exists data',
    add_at data j step = Returned data'
    /\ length data' = length data
    /\ sum data' == sum data + step
    /\ (0 < step -> Forall (fun x => 0 < x) data -> Forall (fun x => 0 < x) data').
Proof.
  intros Hj. unfold add_at, index_of.
  destruct (Z.leb_spec 0 j); [|lia]. destruct (Z.ltb_spec j (Z.of_nat (length data))); [|lia].
  set (m := Z.to_nat j). assert (Hm : (m < length data)%nat) by (unfold m; lia).
  eexists. split; [reflexivity|].
  assert (Hsplit : data = firstn m data ++ nth m data 0 :: skipn (S m) data).
  { rewrite <- (firstn_skipn m data) at 1. f_equal.
    now apply skipn_nth_cons. }
  set (pre := firstn m data) in *. set (x := nth m data 0) in *.
  set (post := skipn (S m) data) in *. clearbody pre x post.
  repeat split.
  - rewrite Hsplit, !length_app. reflexivity.
  - rewrite Hsplit, !sum_app, !sum_cons. ring.
  - intros Hstep Hpos. rewrite Hsplit in Hpos.
    apply Forall_app in Hpos. destruct Hpos as [H1 H2]. inversion H2; subst.
    apply Forall_app. split; [exact H1|]. constructor; [lra|assumption].
Qed.

(** Powers of two, and the Archimedean property that makes the halving
    loops stop. *)

Lemma pow2_0 : pow2 0 == 1.
Proof. reflexivity. Qed.

Lemma pow2_S (h : nat) : pow2 (S h) == 2 * pow2 h.
Proof.
  unfold pow2. rewrite Nat2Z.inj_succ, Z.pow_succ_r by lia.
  rewrite inject_Z_mult. reflexivity.
Qed.

Lemma pow2_gt (h : nat) : inject_Z (Z.of_nat h) < pow2 h.
Proof.
  unfold pow2. rewrite <- Zlt_Qlt. apply Z.pow_gt_lin_r; lia.
Qed.

Lemma Q_archimedean (x y : Q) :
  0 < y -> exists m : nat, x <= inject_Z (Z.of_nat m) * y.
Proof.
  destruct x as [a b], y as [c d]. intros Hy.
  exists (Z.to_nat (a * Zpos d)).
  unfold Qlt in Hy. unfold Qle. simpl in *.
  set (M := Z.of_nat (Z.to_nat (a * Zpos d))).
  assert (Hm : (a * Zpos d <= M)%Z) by (unfold M; lia).
  assert (HM : (0 <= M)%Z) by (unfold M; lia).
  assert (H1 : (M * 1 <= M * c)%Z) by (apply Z.mul_le_mono_nonneg_l; lia).
  assert (H2 : (M * c * 1 <= M * c * Zpos b)%Z)
    by (apply Z.mul_le_mono_nonneg_l; lia).
  lia.
Qed.

Lemma Q_archimedean_pow2 (x y : Q) :
  0 < y -> exists h : nat, x < pow2 h * y.
Proof.
  intros Hy. destruct (Q_archimedean x Hy) as [m Hm]. exists m.
  apply Qle_lt_trans with (1 := Hm).
  apply Qmult_lt_compat_r; [exact Hy|apply pow2_gt].
Qed.

Lemma length_range (n : Z) : length (range n) = Z.to_nat n.
Proof. unfold range. now rewrite length_map, length_seq. Qed.

(** The first loop, from a uniform guess [data = [2*step, ..., 2*step]]:
    it returns within [m] halvings when the guess sums to at most
    [2^m * total]. *)
Lemma PSum_guess_settles (m : nat) :
  forall (n : Z) (total : Q) (data : list Q) (step : Q),
    0 < step ->
    Forall (fun x => x == 2 * step) data ->
    length data = Z.to_nat n ->
    inject_Z (Z.of_nat (Z.to_nat n)) * (2 * step) <= pow2 m * total ->
    exists data' step',
      PSum_guess (S m) n total data step = Returned (data', step')
      /\ 0 < step'
      /\ length data' = Z.to_nat n
      /\ Forall (fun x => 0 < x) data'
      /\ sum data' <= total.
Proof.
  induction m as [|m IH]; intros n total data step Hstep Hdata Hlen Hbound;
    cbn [PSum_guess]; destruct (Qltb total (sum data)) eqn:Etest.
  - apply Qltb_lt in Etest. rewrite (sum_uniform Hdata), Hlen in Etest.
    rewrite pow2_0 in Hbound. lra.
  - apply Qltb_ge in Etest. exists data, step. repeat split; auto.
    eapply Forall_impl; [|exact Hdata]. cbn. intros x Hx. rewrite Hx. lra.
  - apply IH.
    + lra.
    + apply Forall_forall. intros x Hx. apply in_map_iff in Hx.
      destruct Hx as [_ [<- _]]. field.
    + now rewrite length_map, length_range.
    + rewrite pow2_S in Hbound.
      apply Qmult_le_l with (z := 2); [lra|].
      eapply Qle_trans; [|eapply Qle_trans; [exact Hbound|]].
      * apply Qle_lteq. right. field.
      * apply Qle_lteq. right. ring.
  - apply Qltb_ge in Etest. exists data, step. repeat split; auto.
    eapply Forall_impl; [|exact Hdata]. cbn. intros x Hx. rewrite Hx. lra.
Qed.

Lemma PSum_guess_returns (n : Z) (total : Q) :
  0 < total ->
  exists fuel data step,
    PSum_guess fuel n total [total + 1] 1 = Returned (data, step)
    /\ 0 < step
    /\ length data = Z.to_nat n
    /\ Forall (fun x => 0 < x) data
    /\ sum data <= total.
Proof.
  intros Htotal.
  destruct (Q_archimedean_pow2 (inject_Z (Z.of_nat (Z.to_nat n))) Htotal) as [m Hm].
  destruct (@PSum_guess_settles m n total (map (fun _ => 1) (range n)) (1 * (1 # 2)))
    as [data [step H]].
  - lra.
  - apply Forall_forall. intros x Hx. apply in_map_iff in Hx.
    destruct Hx as [_ [<- _]]. reflexivity.
  - now rewrite length_map, length_range.
  - apply Qlt_le_weak. eapply Qle_lt_trans; [|exact Hm].
    apply Qle_lteq. right. field.
  - exists (S (S m)), data, step.
    cbn [PSum_guess].
    replace (Qltb total (sum [total + 1])) with true; [exact H|].
    symmetry. apply Qltb_lt. unfold sum. simpl. lra.
Qed.

(** The second loop: [h] bounds the halvings that are left before [step]
    drops below [lim], [a] the additions that are left before the sum
    reaches [total]. *)
Lemma PSum_fill_returns (fuel : nat) :
  forall (h a : nat) (n : Z) (total lim : Q) (data : list Q) (step : Q) (i : Z),
    (1 <= n)%Z -> 0 < lim -> 0 < step ->
    length data = Z.to_nat n ->
    Forall (fun x => 0 < x) data ->
    sum data <= total ->
    step < pow2 h * lim ->
    total - sum data <= inject_Z (Z.of_nat a) * lim ->
    (h + a < fuel)%nat ->
    exists out,
      PSum_fill fuel n total lim data step i = Returned out
      /\ length out = Z.to_nat n
      /\ Forall (fun x => 0 < x) out
      /\ sum out <= total.
Proof.
  induction fuel as [|fuel IH];
    intros h a n total lim data step i Hn Hlim Hstep Hlen Hpos Hsum Hh Ha Hfuel;
    [lia|].
  cbn [PSum_fill].
  destruct (Qltb (sum data) total && Qle_bool lim step) eqn:Econd.
  2: { exists data. auto. }
  apply andb_prop in Econd. destruct Econd as [Elt Ele].
  apply Qltb_lt in Elt. apply Qle_bool_iff in Ele.
  destruct (Qltb total (sum data + step)) eqn:Eover.
  - (* step *= 0.5 *)
    destruct h as [|h]; [rewrite pow2_0 in Hh; lra|].
    apply (IH h a); auto; try lia.
    + lra.
    + rewrite pow2_S in Hh. lra.
  - (* data[i % n] += step *)
    apply Qltb_ge in Eover.
    destruct a as [|a]; [change (inject_Z (Z.of_nat 0)) with 0 in Ha; lra|].
    unfold py_mod. destruct (Z.eqb_spec n 0) as [->|_]; [lia|]. cbn [bind].
    destruct (@add_at_in_range data (i mod n)%Z step) as [data' [-> [Hlen' [Hsum' Hpos']]]].
    { rewrite Hlen. pose proof (Z.mod_pos_bound i n). lia. }
    cbn [bind]. apply (IH h a); auto; try lia.
    + rewrite Hsum'. exact Eover.
    + rewrite Hsum'. rewrite Nat2Z.inj_succ in Ha. unfold Z.succ in Ha.
      rewrite inject_Z_plus in Ha. change (inject_Z 1) with 1 in Ha. lra.
Qed.

(** Both loops of [PSum] stop when the numbers are added and halved
    exactly: for [n >= 1], [total > 0] and a positive tolerance the result
    has [n] elements, all of them positive, and a sum of at most [total]. *)
Lemma PSum_exact_returns (n : Z) (total lim : Q) :
  (1 <= n)%Z -> 0 < total -> 0 < lim ->
  exists fuel out,
    PSum fuel n total lim = Returned out
    /\ length out = Z.to_nat n
    /\ Forall (fun x => 0 < x) out
    /\ sum out <= total.
Proof.
  intros Hn Htotal Hlim.
  destruct (PSum_guess_returns n Htotal)
    as [fuel1 [data [step [Hguess [Hstep [Hlen [Hpos Hsum]]]]]]].
  destruct (Q_archimedean_pow2 step Hlim) as [h Hh].
  destruct (Q_archimedean (total - sum data) Hlim) as [a Ha].
  destruct (@PSum_fill_returns (S (h + a)) h a n total lim data step 0)
    as [out [Hfill Hout]]; auto.
  exists (Nat.max fuel1 (S (h + a))), out. split; [|exact Hout].
  unfold PSum.
  rewrite (PSum_guess_more_fuel _ _ _ _ Hguess (Nat.le_max_l _ _)). cbn [bind].
  rewrite (PSum_fill_more_fuel _ _ _ _ _ _ Hfill (Nat.le_max_r _ _)). reflexivity.
Qed.

(** C2: [PSum(5, 4)] returns [[1, 0.75, 0.75, 0.75, 0.75]], as the
    docstring says, but [PSum(3, 8)] returns [[3, 2.5, 2.5]] and not the
    [[3, 3, 2]] of the docstring: the second loop only ever adds steps of
    at most 0.5, one element after the other. *)
Theorem PSum_3_8_and_5_4 :
  (forall extra : nat,
     exists out,
       PSum (11 + extra) 3 8 lim_default = Returned out
       /\ num_eq out [3; 5 # 2; 5 # 2]
       /\ ~ num_eq out [3; 3; 2])
  /\ (forall extra : nat,
        exists out,
          PSum (7 + extra) 5 4 lim_default = Returned out
          /\ num_eq out [1; 3 # 4; 3 # 4; 3 # 4; 3 # 4]).
Proof.
  split; intros extra.
  - eexists. split; [|split].
    + apply PSum_more_fuel with (fuel := 11%nat); [vm_compute; reflexivity|lia].
    + apply num_eqb_sound. vm_compute. reflexivity.
    + intros H. apply num_eqb_complete in H. vm_compute in H. discriminate H.
  - eexists. split.
    + apply PSum_more_fuel with (fuel := 7%nat); [vm_compute; reflexivity|lia].
    + apply num_eqb_sound. vm_compute. reflexivity.
Qed.

(** C6: [PSum(4, 0.75)], with the default tolerance 0.125, returns the four
    elements [[0.125, 0.125, 0.125, 0.125]]; they are positive, but their
    sum is 0.5, which is 0.25 away from [total]: the first loop has
    already taken [step] below the tolerance, so the second loop adds
    nothing. *)
Theorem PSum_4_three_quarters_misses_total :
  forall extra : nat,
    exists out,
      PSum (5 + extra) 4 (3 # 4) lim_default = Returned out
      /\ num_eq out [1 # 8; 1 # 8; 1 # 8; 1 # 8]
      /\ sum out == 1 # 2
      /\ ~ ((3 # 4) - sum out <= lim_default).
Proof.
  intros extra. eexists. split; [|split; [|split]].
  - apply PSum_more_fuel with (fuel := 5%nat); [vm_compute; reflexivity|lia].
  - apply num_eqb_sound. vm_compute. reflexivity.
  - vm_compute. reflexivity.
  - vm_compute. intros H. apply H. reflexivity.
Qed.

(* ================================================================== *)
(** ** [PPairs] *)
(* ================================================================== *)

Lemma PPairs_loop_laces {A : Type} (func : A -> A) (seq : list A) :
  forall (i : Z) (data : list A),
    (0 <= i < MAX_SIZE)%Z ->
    PPairs_loop func seq i data
    = data ++ flat_map (fun x => [x; func x]) (firstn (Z.to_nat (MAX_SIZE - i)) seq).
Proof.
  induction seq as [|item rest IH]; intros i data Hi.
  - rewrite firstn_nil. simpl. now rewrite app_nil_r.
  - cbn [PPairs_loop].
    replace (Z.to_nat (MAX_SIZE - i)) with (S (Z.to_nat (MAX_SIZE - (i + 1)))) by lia.
    cbn [firstn flat_map]. destruct (Z.leb_spec MAX_SIZE (i + 1)) as [Hstop|Hgo].
    + replace (Z.to_nat (MAX_SIZE - (i + 1))) with 0%nat by lia.
      simpl. now rewrite <- !app_assoc.
    + rewrite IH by lia. now rewrite <- !app_assoc.
Qed.

(** X1: [PPairs] laces each of the first [MAX_SIZE] items of [seq] with
    [func] of that item, in order, and never looks at a later item: the
    result is [x0, func(x0), x1, func(x1), ...] and has
    [2 * min(len(seq), MAX_SIZE)] elements. *)
Theorem PPairs_laces_first_MAX_SIZE {A : Type} (seq : list A) (func : A -> A) :
  PPairs seq func
  = flat_map (fun x => [x; func x]) (firstn (Z.to_nat MAX_SIZE) seq)
  /\ length (PPairs seq func) = (2 * Nat.min (Z.to_nat MAX_SIZE) (length seq))%nat
  /\ PPairs seq func = PPairs (firstn (Z.to_nat MAX_SIZE) seq) func.
Proof.
  assert (Heq : forall s : list A,
            PPairs s func
            = flat_map (fun x => [x; func x]) (firstn (Z.to_nat MAX_SIZE) s)).
  { intros s. unfold PPairs, Pattern.
    rewrite PPairs_loop_laces by (unfold MAX_SIZE; lia).
    now rewrite Z.sub_0_r. }
  split; [apply Heq|split].
  - rewrite Heq.
    rewrite flat_map_constant_length with (c := 2%nat) by reflexivity.
    rewrite length_firstn. lia.
  - rewrite (Heq (firstn _ seq)), firstn_firstn, Nat.min_id. apply Heq.
Qed.

(* ================================================================== *)
(** ** [PJoin] *)
(* ================================================================== *)

Lemma fold_left_app_acc {A : Type} (patterns : list (list A)) (acc : list A) :
  fold_left (fun data pattern => data ++ pattern) patterns acc = acc ++ concat patterns.
Proof.
  revert acc; induction patterns as [|p ps IH]; intros acc; simpl.
  - now rewrite app_nil_r.
  - rewrite IH. now rewrite app_assoc.
Qed.

(** X2: [PJoin] is the flat concatenation of its patterns, in order: its
    length is the sum of their lengths, and joining two lists of patterns
    put one after the other is joining each and concatenating. *)
Theorem PJoin_flat_concat {A : Type} (patterns more : list (list A)) :
  PJoin patterns = concat patterns
  /\ length (PJoin patterns) = list_sum (map (@length A) patterns)
  /\ PJoin (patterns ++ more) = PJoin patterns ++ PJoin more.
Proof.
  assert (Heq : forall ps : list (list A), PJoin ps = concat ps)
    by (intros ps; unfold PJoin, Pattern; now rewrite fold_left_app_acc).
  split; [apply Heq|split].
  - rewrite Heq. apply length_concat.
  - rewrite !Heq. apply concat_app.
Qed.

(* ================================================================== *)
(** ** [PZip2], [PZip] and [PAlt] *)
(* ================================================================== *)

Lemma nonempty_inhabited {X : Type} (l : list X) :
  l <> [] -> exists d : X, length l <> 0%nat.
Proof. destruct l as [|d r]; [congruence|]. intros _. exists d. discriminate. Qed.

Section Zip2.

Context {A B : Type}.
Variables (pat1 : list A) (pat2 : list B).
Hypothesis pat1_nonempty : pat1 <> [].
Hypothesis pat2_nonempty : pat2 <> [].

Lemma PZip2_loop_filters (d1 : A) (d2 : B) (rule : A -> B -> bool) (todo : nat) :
  forall (i : nat) (data : list (A * B)),
    PZip2_loop rule pat1 pat2 todo i data
    = Returned (data ++ filter (fun ab => rule (fst ab) (snd ab))
                               (map (pair_at pat1 pat2 d1 d2) (seq i todo))).
Proof.
  induction todo as [|todo IH]; intros i data; cbn [PZip2_loop seq map filter].
  - now rewrite app_nil_r.
  - rewrite (modi_nth d1 i pat1_nonempty), (modi_nth d2 i pat2_nonempty). cbn [bind].
    rewrite IH. unfold pair_at at 2. cbn [fst snd].
    destruct (rule _ _); [now rewrite <- app_assoc | reflexivity].
Qed.

Lemma PZip2_filters (d1 : A) (d2 : B) (rule : A -> B -> bool) :
  PZip2 pat1 pat2 rule
  = Returned (filter (fun ab => rule (fst ab) (snd ab))
                     (map (pair_at pat1 pat2 d1 d2) (seq 0 (Nat.lcm (length pat1) (length pat2))))).
Proof.
  unfold PZip2, Pattern. rewrite LCM_nonempty; [|discriminate|].
  2: { destruct (nonempty_inhabited pat1_nonempty) as [_ H1].
       destruct (nonempty_inhabited pat2_nonempty) as [_ H2].
       repeat constructor; assumption. }
  cbn [bind fold_right]. rewrite Nat.lcm_1_r.
  now rewrite (PZip2_loop_filters d1 d2).
Qed.

Lemma filter_all_true {X : Type} (l : list X) : filter (fun _ => true) l = l.
Proof. induction l as [|x l IH]; simpl; congruence. Qed.

(** X3: on two non-empty patterns and with the default rule, [PZip2]
    returns LCM(len(pat1), len(pat2)) pairs, pair [j] being
    [(pat1[j mod len(pat1)], pat2[j mod len(pat2)])]. *)
Theorem PZip2_default_aligns :
  exists all,
    PZip2 pat1 pat2 PZip2_rule_default = Returned all
    /\ length all = Nat.lcm (length pat1) (length pat2)
    /\ forall j, (j < Nat.lcm (length pat1) (length pat2))%nat ->
         exists a b,
           nth_error pat1 (j mod length pat1) = Some a
           /\ nth_error pat2 (j mod length pat2) = Some b
           /\ nth_error all j = Some (a, b).
Proof.
  destruct (nonempty_inhabited pat1_nonempty) as [d1 Hl1].
  destruct (nonempty_inhabited pat2_nonempty) as [d2 Hl2].
  eexists. split; [|split].
  - rewrite (PZip2_filters d1 d2). unfold PZip2_rule_default.
    rewrite filter_all_true. reflexivity.
  - now rewrite length_map, length_seq.
  - intros j Hj.
    exists (nth (j mod length pat1) pat1 d1), (nth (j mod length pat2) pat2 d2).
    repeat split.
    + apply nth_error_nth'. apply Nat.mod_upper_bound. exact Hl1.
    + apply nth_error_nth'. apply Nat.mod_upper_bound. exact Hl2.
    + rewrite nth_error_map, nth_error_seq.
      destruct (Nat.ltb_spec j (Nat.lcm (length pat1) (length pat2))); [|lia].
      reflexivity.
Qed.

(** X4: a rule only filters: on two non-empty patterns, [PZip2] with
    [rule] returns the pairs of [PZip2] with the default rule that satisfy
    [rule], in the same order; so every pair it returns satisfies the rule
    and there are at most LCM(len(pat1), len(pat2)) of them. *)
Theorem PZip2_rule_filters (rule : A -> B -> bool) :
  exists all out,
    PZip2 pat1 pat2 PZip2_rule_default = Returned all
    /\ PZip2 pat1 pat2 rule = Returned out
    /\ out = filter (fun ab => rule (fst ab) (snd ab)) all
    /\ Forall (fun ab => rule (fst ab) (snd ab) = true) out
    /\ (length out <= Nat.lcm (length pat1) (length pat2))%nat.
Proof.
  destruct (nonempty_inhabited pat1_nonempty) as [d1 Hl1].
  destruct (nonempty_inhabited pat2_nonempty) as [d2 Hl2].
  eexists. eexists. split; [|split; [|split; [|split]]].
  - rewrite (PZip2_filters d1 d2). unfold PZip2_rule_default.
    rewrite filter_all_true. reflexivity.
  - apply (PZip2_filters d1 d2).
  - reflexivity.
  - apply Forall_forall. intros ab Hab. apply filter_In in Hab. tauto.
  - eapply Nat.le_trans; [apply filter_length_le|].
    now rewrite length_map, length_seq.
Qed.

End Zip2.

Lemma PZip2_default_aligns_witness :
  exists all,
    PZip2 [0; 1; 2]%Z [3; 4]%Z PZip2_rule_default = Returned all
    /\ length all = Nat.lcm (length [0; 1; 2]%Z) (length [3; 4]%Z)
    /\ forall j, (j < Nat.lcm (length [0; 1; 2]%Z) (length [3; 4]%Z))%nat ->
         exists a b,
           nth_error [0; 1; 2]%Z (j mod length [0; 1; 2]%Z) = Some a
           /\ nth_error [3; 4]%Z (j mod length [3; 4]%Z) = Some b
           /\ nth_error all j = Some (a, b).
Proof.
  apply (@PZip2_default_aligns Z Z [0; 1; 2]%Z [3; 4]%Z); discriminate.
Defined.

Lemma PZip2_rule_filters_witness :
  exists all out,
    PZip2 [0; 1; 2]%Z [3; 4]%Z PZip2_rule_default = Returned all
    /\ PZip2 [0; 1; 2]%Z [3; 4]%Z (fun a b => (a + 2 <? b)%Z) = Returned out
    /\ out = filter (fun ab => (fst ab + 2 <? snd ab)%Z) all
    /\ Forall (fun ab => (fst ab + 2 <? snd ab)%Z = true) out
    /\ (length out <= Nat.lcm (length [0; 1; 2]%Z) (length [3; 4]%Z))%nat.
Proof.
  apply (@PZip2_rule_filters Z Z [0; 1; 2]%Z [3; 4]%Z); discriminate.
Defined.

Lemma fold_left_snoc {A : Type} (args acc : list A) :
  fold_left (fun data item => data ++ [item]) args acc = acc ++ args.
Proof.
  revert acc; induction args as [|x args IH]; intros acc; simpl.
  - now rewrite app_nil_r.
  - rewrite IH. now rewrite <- app_assoc.
Qed.

Lemma P_getitem_items {A : Type} (args : list A) : P_getitem args = args.
Proof. unfold P_getitem, Pattern. apply fold_left_snoc. Qed.

(** The first loop of [PZip] collects the inputs and their lengths. *)
Lemma PZip_collects {A : Type} (inputs : list (list A)) :
  forall l p,
    fold_left (fun '(l, p) pat =>
                 let p := p ++ [P_getitem pat] in
                 let l := l ++ [length (last p [])] in
                 (l, p))
              inputs (l, p)
    = (l ++ map (@length A) inputs, p ++ inputs).
Proof.
  induction inputs as [|pat inputs IH]; intros l p; simpl.
  - now rewrite !app_nil_r.
  - rewrite IH, last_last, P_getitem_items. now rewrite <- !app_assoc.
Qed.

Lemma PZip_tuples {A : Type} (d : A) (pat1 pat2 : list A) (patN : list (list A)) :
  Forall (fun s => s <> []) (pat1 :: pat2 :: patN) ->
  PZip pat1 pat2 patN
  = Returned (map (fun i => map (fun s => nth (i mod length s) s d) (pat1 :: pat2 :: patN))
                  (seq 0 (fold_right Nat.lcm 1%nat
                            (map (@length A) (pat1 :: pat2 :: patN))))).
Proof.
  intros Hne. unfold PZip, Pattern.
  change ([pat1; pat2] ++ patN) with (pat1 :: pat2 :: patN).
  set (inputs := pat1 :: pat2 :: patN) in *.
  rewrite PZip_collects. cbn [app].
  rewrite LCM_nonempty.
  2: { subst inputs; discriminate. }
  2: { rewrite Forall_forall in *. intros n Hin. apply in_map_iff in Hin.
       destruct Hin as [s [<- Hs]]. specialize (Hne s Hs).
       destruct s; [congruence|discriminate]. }
  cbn [bind]. clearbody inputs.
  rewrite (for_each_collect
             (fun i => for_each (fun t pat => x <- modi pat i ;; Returned (t ++ [x]))
                                inputs [])
             (fun i => map (fun s => nth (i mod length s) s d) inputs)).
  - reflexivity.
  - intros i _.
    rewrite (for_each_collect (fun pat => modi pat i)
                              (fun s => nth (i mod length s) s d)); [reflexivity|].
    intros s Hs. apply modi_nth. rewrite Forall_forall in Hne. now apply Hne.
Qed.

(** X5: on inputs none of which is empty, [PZip] returns LCM-many tuples;
    tuple [i] has one component per input, in the order of the inputs, and
    its component [j] is element [i mod len] of input [j]. *)
Theorem PZip_aligns {A : Type} (pat1 pat2 : list A) (patN : list (list A)) :
  Forall (fun s => s <> []) (pat1 :: pat2 :: patN) ->
  exists tuples,
    PZip pat1 pat2 patN = Returned tuples
    /\ length tuples
       = fold_right Nat.lcm 1%nat (map (@length A) (pat1 :: pat2 :: patN))
    /\ forall i t, nth_error tuples i = Some t ->
         length t = length (pat1 :: pat2 :: patN)
         /\ forall j s, nth_error (pat1 :: pat2 :: patN) j = Some s ->
                        nth_error t j = nth_error s (i mod length s).
Proof.
  intros Hne. destruct pat1 as [|d r1] eqn:E1.
  { inversion Hne; congruence. }
  rewrite <- E1 in *.
  eexists. split; [apply (PZip_tuples d); exact Hne|].
  set (inputs := pat1 :: pat2 :: patN) in *. clearbody inputs. split.
  - now rewrite length_map, length_seq.
  - intros i t Ht. rewrite nth_error_map in Ht.
    destruct (nth_error (seq 0 _) i) as [i'|] eqn:Ei; [|discriminate Ht].
    assert (i' = i).
    { apply nth_error_In in Ei as Hin. apply in_seq in Hin.
      rewrite nth_error_seq in Ei.
      destruct (Nat.ltb_spec i (fold_right Nat.lcm 1%nat (map (@length A) inputs)));
        simpl in Ei; congruence. }
    subst i'. cbn [option_map] in Ht. injection Ht as <-. split.
    + now rewrite length_map.
    + intros j s Hs. rewrite nth_error_map, Hs. simpl.
      symmetry. apply nth_error_nth'. apply Nat.mod_upper_bound.
      rewrite Forall_forall in Hne. apply nth_error_In in Hs.
      specialize (Hne s Hs). destruct s; [congruence|discriminate].
Qed.

Lemma PZip_aligns_witness :
  exists tuples,
    PZip [0; 1; 2]%Z [3; 4]%Z [[5]%Z] = Returned tuples
    /\ length tuples
       = fold_right Nat.lcm 1%nat (map (@length Z) [[0; 1; 2]; [3; 4]; [5]]%Z)
    /\ forall i t, nth_error tuples i = Some t ->
         length t = length [[0; 1; 2]; [3; 4]; [5]]%Z
         /\ forall j s, nth_error [[0; 1; 2]; [3; 4]; [5]]%Z j = Some s ->
                        nth_error t j = nth_error s (i mod length s).
Proof.
  apply (@PZip_aligns Z [0; 1; 2]%Z [3; 4]%Z [[5]%Z]).
  repeat constructor; discriminate.
Defined.

(** X6: alternating is zipping, flattened: on inputs none of which is
    empty, [PAlt] returns the join ([PJoin]) of the tuples that [PZip]
    returns on the same inputs. *)
Theorem PAlt_joins_PZip {A : Type} (pat1 pat2 : list A) (patN : list (list A)) :
  Forall (fun s => s <> []) (pat1 :: pat2 :: patN) ->
  exists tuples,
    PZip pat1 pat2 patN = Returned tuples
    /\ PAlt pat1 pat2 patN = Returned (PJoin tuples).
Proof.
  intros Hne. destruct pat1 as [|d r1] eqn:E1.
  { inversion Hne; congruence. }
  rewrite <- E1 in *.
  eexists. split; [apply (PZip_tuples d); exact Hne|].
  rewrite (PAlt_round_robin d) by exact Hne.
  f_equal. unfold round_robin, PJoin, Pattern.
  rewrite fold_left_app_acc. simpl. apply flat_map_concat_map.
Qed.

Lemma PAlt_joins_PZip_witness :
  exists tuples,
    PZip [0; 1; 2]%Z [3; 4]%Z [] = Returned tuples
    /\ PAlt [0; 1; 2]%Z [3; 4]%Z [] = Returned (PJoin tuples).
Proof.
  apply (@PAlt_joins_PZip Z [0; 1; 2]%Z [3; 4]%Z []).
  repeat constructor; discriminate.
Defined.

(** X7: the two zips agree: on two non-empty patterns, the tuples of
    [PZip(pat1, pat2)] are the pairs of [PZip2(pat1, pat2)] with its default
    rule, in the same order. *)
Theorem PZip_agrees_with_PZip2 {A : Type} (pat1 pat2 : list A) :
  pat1 <> [] -> pat2 <> [] ->
  exists pairs,
    PZip2 pat1 pat2 PZip2_rule_default = Returned pairs
    /\ PZip pat1 pat2 [] = Returned (map (fun ab => [fst ab; snd ab]) pairs).
Proof.
  intros H1 H2. destruct pat1 as [|d r1] eqn:E1; [congruence|]. rewrite <- E1 in *.
  eexists. split.
  - rewrite (PZip2_filters H1 H2 d d). unfold PZip2_rule_default.
    rewrite filter_all_true. reflexivity.
  - rewrite (PZip_tuples d) by (repeat constructor; assumption).
    f_equal. rewrite map_map. cbn [map fold_right length]. rewrite Nat.lcm_1_r.
    reflexivity.
Qed.

Lemma PZip_agrees_with_PZip2_witness :
  exists pairs,
    PZip2 [0; 1; 2]%Z [3; 4]%Z PZip2_rule_default = Returned pairs
    /\ PZip [0; 1; 2]%Z [3; 4]%Z [] = Returned (map (fun ab => [fst ab; snd ab]) pairs).
Proof. apply (@PZip_agrees_with_PZip2 Z [0; 1; 2]%Z [3; 4]%Z); discriminate. Defined.

(* ================================================================== *)
(** ** [PStep] and [PStutter] *)
(* ================================================================== *)

(** X8: [PStep(n, value, default)] never returns an empty Sequence: it has
    [max(n, 1)] elements, the last one is [value] and all the others are
    [default]; for [n <= 1], zero and negative [n] included, it is
    [[value]]. *)
Theorem PStep_shape {A : Type} (n : Z) (value default : A) :
  length (PStep n value default) = Z.to_nat (Z.max n 1)
  /\ nth_error (PStep n value default) (Z.to_nat (Z.max n 1) - 1) = Some value
  /\ (forall i, (i < Z.to_nat (Z.max n 1) - 1)%nat ->
                nth_error (PStep n value default) i = Some default)
  /\ PStep (Z.min n 1) value default = [value].
Proof.
  unfold PStep, Pattern.
  assert (Hlen : length (repeat default (Z.to_nat (n - 1))) = (Z.to_nat (Z.max n 1) - 1)%nat)
    by (rewrite repeat_length; lia).
  repeat split.
  - rewrite length_app, Hlen. simpl. lia.
  - rewrite nth_error_app2 by lia. rewrite Hlen, Nat.sub_diag. reflexivity.
  - intros i Hi. rewrite nth_error_app1 by lia.
    apply nth_error_repeat. lia.
  - replace (Z.to_nat (Z.min n 1 - 1)) with 0%nat by lia. reflexivity.
Qed.

Lemma PStutter_repeat {A : Type} (x : A) (n : Z) :
  PStutter x n = repeat x (Z.to_nat n).
Proof.
  unfold PStutter, Pattern, range. rewrite map_map.
  generalize 0%nat. induction (Z.to_nat n) as [|m IH]; intros start; simpl; [reflexivity|].
  now rewrite IH.
Qed.

(** X9: [PStutter] called on a Sequence of at least one item and an
    integer [n], through the flat broadcast, repeats each item [n] times, in
    order (for [n <= 0] nothing is left). *)
Theorem PStutter_repeats_each_item (wrap : list value -> value) (xs : list value) (n : Z) :
  xs <> [] ->
  loop_pattern_func true wrap PStutter_args [SeqArg xs; Scalar (VInt n)]
  = Returned (flat_map (fun x => repeat x (Z.to_nat n)) xs).
Proof.
  intros Hne. destruct (nonempty_inhabited Hne) as [_ Hlen].
  destruct xs as [|d rest] eqn:Exs; [congruence|]. rewrite <- Exs in *.
  unfold loop_pattern_func.
  change [SeqArg xs; Scalar (VInt n)]
    with (map (@Scalar value) [] ++ SeqArg xs :: map (@Scalar value) [VInt n]).
  rewrite seq_lengths_one.
  rewrite LCM_nonempty; [|discriminate|repeat constructor; exact Hlen].
  cbn [bind fold_right]. rewrite Nat.lcm_1_r.
  set (G := fun i : nat => Returned (A := list value)
                             (repeat (nth (i mod length xs) xs d) (Z.to_nat n))).
  rewrite (for_each_ext _ (fun pat i => r <- G i ;; Returned (pat ++ r))).
  2: { intros pat i _. rewrite resolve_all_one, (modi_nth d i Hne). unfold G.
       cbn [bind app PStutter_args step_of]. now rewrite PStutter_repeat. }
  etransitivity; [apply (for_each_join G (seq 0 (length xs)) [])|].
  rewrite (for_each_collect G
             (fun i => repeat (nth (i mod length xs) xs d) (Z.to_nat n)))
    by reflexivity.
  cbn [bind app]. f_equal. unfold PJoin, Pattern. rewrite fold_left_app_acc. cbn [app].
  rewrite <- (map_map (fun i => nth (i mod length xs) xs d)
                      (fun x => repeat x (Z.to_nat n))).
  rewrite map_nth_seq_id. symmetry. apply flat_map_concat_map.
Qed.

Lemma PStutter_repeats_each_item_witness :
  loop_pattern_func true (fun r => VTuple r) PStutter_args
    [SeqArg [VInt 1; VInt 2]; Scalar (VInt 3)]
  = Returned (flat_map (fun x => repeat x (Z.to_nat 3)) [VInt 1; VInt 2]).
Proof.
  apply (@PStutter_repeats_each_item (fun r => VTuple r) [VInt 1; VInt 2] 3).
  discriminate.
Defined.

(* ================================================================== *)
(** ** [PQuicken] *)
(* ================================================================== *)






(** X11: with [stepsize = 0] and at least one round, [PQuicken] fails with
    the ZeroDivisionError of [dur /= stepsize]: the inner loop runs over an
    empty range and divides nothing. *)
Theorem PQuicken_stepsize_zero (dur : Q) (steps : Z) :
  (1 <= steps)%Z -> PQuicken dur 0 steps = Raised ZeroDivisionError.
Proof.
  intros Hsteps. unfold PQuicken, PQuicken_delay, range.
  destruct (Z.to_nat steps) as [|m] eqn:E; [lia|]. reflexivity.
Qed.

Lemma PQuicken_stepsize_zero_witness :
  PQuicken (1 # 2) 0 6 = Raised ZeroDivisionError.
Proof. apply (@PQuicken_stepsize_zero (1 # 2) 6). lia. Defined.

(* ================================================================== *)
(** ** [PSum], continued *)
(* ================================================================== *)

(** X13: for [1 <= n <= 2^20] and [2^-1000 <= total <= 2^20], [PSum(n,
    total)] with the default tolerance returns: a Sequence of exactly [n]
    elements, all of them positive, whose sum does not exceed [total].  In
    this range every step, element and sum of the two loops is a multiple of
    a power of two that a double holds exactly, so that nothing is rounded;
    outside of it [step] can underflow to 0.0, or [total + 1] round to
    [total]. *)
Theorem PSum_returns_n_positive (n : Z) (total : Q) :
  (1 <= n <= 2 ^ 20)%Z ->
  1 / inject_Z (2 ^ 1000) <= total -> total <= inject_Z (2 ^ 20) ->
  exists fuel out,
    PSum fuel n total lim_default = Returned out
    /\ length out = Z.to_nat n
    /\ Forall (fun x => 0 < x) out
    /\ sum out <= total.
Proof.
  intros Hn Hlo _. apply PSum_exact_returns; [lia| |reflexivity].
  apply Qlt_le_trans with (2 := Hlo). reflexivity.
Qed.

Lemma PSum_returns_n_positive_witness :
  exists fuel out,
    PSum fuel 4 (3 # 4) lim_default = Returned out
    /\ length out = Z.to_nat 4
    /\ Forall (fun x => 0 < x) out
    /\ sum out <= 3 # 4.
Proof.
  apply (@PSum_returns_n_positive 4 (3 # 4));
    [lia|vm_compute; discriminate|vm_compute; discriminate].
Defined.

Lemma pow2_ge_1 (j : nat) : 1 <= pow2 j.
Proof.
  unfold pow2. change 1 with (inject_Z 1). rewrite <- Zle_Qle.
  pose proof (Z.pow_pos_nonneg 2 (Z.of_nat j)). lia.
Qed.

Lemma index_of_lt (len : nat) (j : Z) (m : nat) :
  index_of len j = Some m -> (m < len)%nat.
Proof.
  unfold index_of. destruct (Z.leb_spec 0 j).
  - destruct (Z.ltb_spec j (Z.of_nat len)); [|discriminate]. intros [= <-]. lia.
  - destruct (Z.leb_spec (- Z.of_nat len) j); [|discriminate]. intros [= <-]. lia.
Qed.

Lemma add_at_returned (data : list Q) (j : Z) (step : Q) (data' : list Q) :
  add_at data j step = Returned data' -> sum data' == sum data + step.
Proof.
  unfold add_at. destruct (index_of (length data) j) as [m|] eqn:E; [|discriminate].
  intros H. apply index_of_lt in E.
  replace data' with (firstn m data ++ (nth m data 0 + step) :: skipn (S m) data)
    by congruence.
  clear H.
  assert (Hsplit : data = firstn m data ++ nth m data 0 :: skipn (S m) data).
  { rewrite <- (firstn_skipn m data) at 1. f_equal. now apply skipn_nth_cons. }
  set (pre := firstn m data) in *. set (x := nth m data 0) in *.
  set (post := skipn (S m) data) in *. clearbody pre x post.
  rewrite Hsplit, !sum_app, !sum_cons. ring.
Qed.

(** The second loop ends close to [total] when it starts with a [step]
    that is [lim] times a power of two: [step] then passes through [lim]
    itself before it drops below. *)
Lemma PSum_fill_gap (fuel : nat) :
  forall (n : Z) (total lim : Q) (data : list Q) (step : Q) (i : Z) (out : list Q),
    0 < lim ->
    sum data <= total ->
    (exists j, step == pow2 j * lim) \/ (step < lim /\ total - sum data < lim) ->
    PSum_fill fuel n total lim data step i = Returned out ->
    sum out <= total /\ total - sum out < lim.
Proof.
  induction fuel as [|fuel IH]; intros n total lim data step i out Hlim Hsum Hstate Hrun;
    [discriminate Hrun|].
  cbn [PSum_fill] in Hrun.
  destruct (Qltb (sum data) total && Qle_bool lim step) eqn:Econd.
  - apply andb_prop in Econd. destruct Econd as [Elt Ele].
    apply Qltb_lt in Elt. apply Qle_bool_iff in Ele.
    destruct Hstate as [[j Hj]|[Hlow _]]; [|lra].
    destruct (Qltb total (sum data + step)) eqn:Eover.
    + apply Qltb_lt in Eover.
      apply (IH _ _ _ _ _ _ _ Hlim Hsum) in Hrun; [exact Hrun|].
      destruct j as [|j].
      * right. rewrite pow2_0 in Hj. lra.
      * left. exists j. rewrite pow2_S in Hj. rewrite Hj. field.
    + apply Qltb_ge in Eover.
      destruct (py_mod i n) as [m| |]; cbn [bind] in Hrun; try discriminate Hrun.
      destruct (add_at data m step) as [data'| |] eqn:Eadd; cbn [bind] in Hrun;
        try discriminate Hrun.
      apply add_at_returned in Eadd.
      apply (IH _ _ _ _ _ _ _ Hlim) in Hrun; [exact Hrun| |].
      * rewrite Eadd. exact Eover.
      * left. exists j. exact Hj.
  - injection Hrun as <-. split; [exact Hsum|].
    apply andb_false_iff in Econd. destruct Econd as [Ege|Elow].
    + apply Qltb_ge in Ege. lra.
    + destruct Hstate as [[j Hj]|[_ Hgap]]; [|exact Hgap].
      assert (Hle : lim <= step).
      { rewrite Hj. pose proof (pow2_ge_1 j) as H1.
        apply Qle_trans with (y := 1 * lim); [lra|].
        apply Qmult_le_compat_r; [exact H1|lra]. }
      apply Qle_bool_iff in Hle. congruence.
Qed.

(** With [n/4 <= total] the first loop stops at a uniform guess of 1, 1/2
    or 1/4, so with a [step] of 1/2, 1/4 or 1/8. *)
Lemma PSum_guess_coarse (n : Z) (total : Q) :
  inject_Z (Z.of_nat (Z.to_nat n)) * (1 # 4) <= total ->
  exists data step j,
    PSum_guess 4 n total [total + 1] 1 = Returned (data, step)
    /\ step == pow2 j * lim_default
    /\ 0 < step
    /\ length data = Z.to_nat n
    /\ Forall (fun x => 0 < x) data
    /\ sum data <= total.
Proof.
  intros Hn.
  assert (Huni : forall s : Q,
            sum (map (fun _ => s) (range n)) == inject_Z (Z.of_nat (Z.to_nat n)) * s).
  { intros s. rewrite (@sum_uniform s).
    - now rewrite length_map, length_range.
    - apply Forall_forall. intros x Hx. apply in_map_iff in Hx.
      destruct Hx as [_ [<- _]]. reflexivity. }
  assert (Hposi : forall s : Q, 0 < s -> Forall (fun x => 0 < x) (map (fun _ => s) (range n))).
  { intros s Hs. apply Forall_forall. intros x Hx. apply in_map_iff in Hx.
    destruct Hx as [_ [<- _]]. exact Hs. }
  assert (Hlen : forall s : Q, length (map (fun _ => s) (range n)) = Z.to_nat n)
    by (intros s; now rewrite length_map, length_range).
  cbn [PSum_guess].
  replace (Qltb total (sum [total + 1])) with true
    by (symmetry; apply Qltb_lt; unfold sum; simpl; lra).
  destruct (Qltb total (sum (map (fun _ => 1) (range n)))) eqn:E1.
  2: { apply Qltb_ge in E1. exists (map (fun _ => 1) (range n)), (1 * (1 # 2)), 2%nat.
       repeat split; auto; try reflexivity. apply Hposi. lra. }
  destruct (Qltb total (sum (map (fun _ => 1 * (1 # 2)) (range n)))) eqn:E2.
  2: { apply Qltb_ge in E2.
       exists (map (fun _ => 1 * (1 # 2)) (range n)), (1 * (1 # 2) * (1 # 2)), 1%nat.
       repeat split; auto; try reflexivity. apply Hposi. lra. }
  destruct (Qltb total (sum (map (fun _ => 1 * (1 # 2) * (1 # 2)) (range n)))) eqn:E3.
  { apply Qltb_lt in E3. rewrite Huni in E3. lra. }
  apply Qltb_ge in E3.
  exists (map (fun _ => 1 * (1 # 2) * (1 # 2)) (range n)),
         (1 * (1 # 2) * (1 # 2) * (1 # 2)), 0%nat.
  repeat split; auto; try reflexivity. apply Hposi. lra.
Qed.

(** X14: for [n >= 1] and [n/4 <= total <= 2^20], [PSum(n, total)] with the
    default tolerance returns [n] positive elements whose sum is at most
    [total] and less than 0.125 below it.  In this range the elements and
    their sums are multiples of 0.125 below [2^21], which doubles add
    without rounding; from [2^53] on [total + 1] rounds to [total] and the
    first loop is skipped. *)
Theorem PSum_within_tolerance (n : Z) (total : Q) :
  (1 <= n)%Z -> inject_Z n * (1 # 4) <= total -> total <= inject_Z (2 ^ 20) ->
  exists fuel out,
    PSum fuel n total lim_default = Returned out
    /\ length out = Z.to_nat n
    /\ Forall (fun x => 0 < x) out
    /\ sum out <= total
    /\ total - sum out < lim_default.
Proof.
  intros Hn Htotal _.
  assert (Hlim : 0 < lim_default) by reflexivity.
  destruct (@PSum_guess_coarse n total)
    as [data [step [j [Hguess [Hj [Hstep [Hlen [Hpos Hsum]]]]]]]].
  { rewrite Z2Nat.id by lia. exact Htotal. }
  destruct (Q_archimedean_pow2 step Hlim) as [h Hh].
  destruct (Q_archimedean (total - sum data) Hlim) as [a Ha].
  destruct (@PSum_fill_returns (S (h + a)) h a n total lim_default data step 0)
    as [out [Hfill [Hlen' [Hpos' Hsum']]]]; auto.
  destruct (@PSum_fill_gap _ _ _ _ _ _ _ _ Hlim Hsum (or_introl (ex_intro _ j Hj)) Hfill)
    as [_ Hgap].
  exists (Nat.max 4 (S (h + a))), out. repeat split; auto.
  unfold PSum.
  rewrite (PSum_guess_more_fuel _ _ _ _ Hguess (Nat.le_max_l _ _)). cbn [bind].
  rewrite (PSum_fill_more_fuel _ _ _ _ _ _ Hfill (Nat.le_max_r _ _)). reflexivity.
Qed.

Lemma PSum_within_tolerance_witness :
  exists fuel out,
    PSum fuel 5 4 lim_default = Returned out
    /\ length out = Z.to_nat 5
    /\ Forall (fun x => 0 < x) out
    /\ sum out <= 4
    /\ 4 - sum out < lim_default.
Proof.
  apply (@PSum_within_tolerance 5 4);
    [lia|unfold Qle; simpl; lia|vm_compute; discriminate].
Defined.

(* ================================================================== *)
(** ** [PDur] and [PBeat]: what the durations add up to *)
(* ================================================================== *)

Lemma concat_merge_round (heads rests : list (list Z)) :
  Permutation
    (concat (map (fun hr => fst hr ++ snd hr) (combine heads rests)
             ++ (skipn (Nat.min (length heads) (length rests)) heads
                 ++ skipn (Nat.min (length heads) (length rests)) rests)))
    (concat (heads ++ rests)).
Proof.
  revert rests; induction heads as [|h heads IH]; intros rests.
  - simpl. apply Permutation_refl.
  - destruct rests as [|r rests].
    + simpl. apply Permutation_refl.
    + cbn [combine map length Nat.min skipn fst snd app].
      cbn [concat]. specialize (IH rests).
      rewrite <- app_assoc. apply Permutation_app_head.
      eapply Permutation_trans; [apply Permutation_app_head; exact IH|].
      rewrite !concat_app. cbn [concat]. apply Permutation_app_swap_app.
Qed.

Lemma bjorklund_permutes (rounds : nat) :
  forall heads rests,
    Permutation (concat (bjorklund rounds heads rests)) (concat (heads ++ rests)).
Proof.
  induction rounds as [|rounds IH]; intros heads rests; cbn [bjorklund].
  - apply Permutation_refl.
  - destruct (length rests <=? 1)%nat; [apply Permutation_refl|].
    eapply Permutation_trans; [apply IH|]. apply concat_merge_round.
Qed.

Lemma bjorklund_leads_with_pulse (rounds : nat) :
  forall heads rests g gs,
    heads = (1%Z :: g) :: gs ->
    exists g' gs', bjorklund rounds heads rests = (1%Z :: g') :: gs'.
Proof.
  induction rounds as [|rounds IH]; intros heads rests g gs ->; cbn [bjorklund].
  - simpl. eauto.
  - destruct (Nat.leb_spec (length rests) 1) as [_|Hlen]; [simpl; eauto|].
    destruct rests as [|r rests]; [simpl in Hlen; lia|].
    cbn [combine map fst snd app]. eapply IH. reflexivity.
Qed.

Lemma concat_repeat_singleton (x : Z) (m : nat) : concat (repeat [x] m) = repeat x m.
Proof. induction m as [|m IH]; simpl; congruence. Qed.

(** For [1 <= n <= k] the pulses have [k] entries, [n] of them pulses, and
    start with a pulse. *)
Lemma EuclidsAlgorithm_pulses (n k : Z) :
  (1 <= n <= k)%Z ->
  exists rest,
    EuclidsAlgorithm n k = Returned (1%Z :: rest)
    /\ length (1%Z :: rest) = Z.to_nat k
    /\ count_occ Z.eq_dec (1%Z :: rest) 1%Z = Z.to_nat n.
Proof.
  intros Hnk. unfold EuclidsAlgorithm.
  destruct (Z.leb_spec n 0); [lia|]. destruct (Z.leb_spec k 0); [lia|]. cbn [orb].
  set (heads := repeat [1%Z] (Z.to_nat n)). set (rests := repeat [0%Z] (Z.to_nat (k - n))).
  assert (Hperm := bjorklund_permutes (Z.to_nat k) heads rests).
  destruct (@bjorklund_leads_with_pulse (Z.to_nat k) heads rests [] (repeat [1%Z] (Z.to_nat n - 1)))
    as [g' [gs' Hhead]].
  { unfold heads. destruct (Z.to_nat n) as [|m] eqn:E; [lia|]. simpl.
    now rewrite Nat.sub_0_r. }
  rewrite Hhead in *. cbn [concat app] in *.
  exists (g' ++ concat gs'). split; [reflexivity|].
  rewrite concat_app in Hperm. unfold heads, rests in Hperm.
  rewrite !concat_repeat_singleton in Hperm. split.
  - rewrite (Permutation_length Hperm), length_app, !repeat_length. lia.
  - rewrite (Permutation_count_occ Z.eq_dec) in Hperm. rewrite Hperm.
    rewrite count_occ_app, count_occ_repeat_eq by reflexivity.
    rewrite count_occ_repeat_neq by discriminate. lia.
Qed.

Lemma runs_total (data : list Z) :
  forall count : Z,
    sum (map inject_Z (runs count data))
    == inject_Z count + inject_Z (Z.of_nat (length data)).
Proof.
  induction data as [|item data IH]; intros count; cbn [runs].
  - unfold sum. simpl. ring.
  - destruct (item =? 1)%Z; cbn [map length].
    + rewrite sum_cons, IH, Nat2Z.inj_succ. unfold Z.succ. rewrite inject_Z_plus. ring.
    + rewrite IH, Nat2Z.inj_succ. unfold Z.succ. rewrite !inject_Z_plus. ring.
Qed.

Lemma runs_count (data : list Z) :
  forall count : Z, length (runs count data) = S (count_occ Z.eq_dec data 1%Z).
Proof.
  induction data as [|item data IH]; intros count; cbn [runs count_occ]; [reflexivity|].
  destruct (Z.eqb_spec item 1) as [->|Hne].
  - destruct (Z.eq_dec 1 1); [|congruence]. cbn [length]. now rewrite IH.
  - destruct (Z.eq_dec item 1); [congruence|]. apply IH.
Qed.

Lemma sum_scale (pattern : list Z) (dur : Q) :
  sum (scale pattern dur) == sum (map inject_Z pattern) * dur.
Proof.
  unfold scale. induction pattern as [|x pattern IH]; cbn [map].
  - unfold sum. simpl. ring.
  - rewrite !sum_cons, IH. ring.
Qed.

Lemma rotate_keeps (pattern : list Z) (n : Z) :
  length (rotate pattern n) = length pattern
  /\ sum (map inject_Z (rotate pattern n)) == sum (map inject_Z pattern).
Proof.
  unfold rotate. destruct pattern as [|x rest]; [split; reflexivity|].
  set (l := x :: rest). set (m := Z.to_nat (n mod Z.of_nat (length l))). split.
  - rewrite length_app, Nat.add_comm, <- length_app. now rewrite firstn_skipn.
  - rewrite map_app, sum_app, Qplus_comm, <- sum_app, <- map_app. now rewrite firstn_skipn.
Qed.

(** What [PDur] makes of the pulses once the loop has settled [k] and [dur]. *)
Lemma PDur_finish_durations (n k start : Z) (dur : Q) :
  (1 <= n <= k)%Z ->
  exists out,
    PDur_finish n k start dur = Returned out
    /\ length out = Z.to_nat n
    /\ sum out == inject_Z k * dur.
Proof.
  intros Hnk. unfold PDur_finish.
  destruct (EuclidsAlgorithm_pulses Hnk) as [rest [-> [Hlen Hcount]]]. cbn [bind].
  unfold Pattern, PulsesToDurations. cbn [tl].
  assert (Hruns_len : length (runs 1 rest) = Z.to_nat n).
  { rewrite runs_count. cbn [count_occ] in Hcount.
    destruct (Z.eq_dec 1 1); [|congruence]. exact Hcount. }
  assert (Hruns_sum : sum (map inject_Z (runs 1 rest)) == inject_Z k).
  { rewrite runs_total. cbn [length] in Hlen. rewrite <- inject_Z_plus.
    replace (1 + Z.of_nat (length rest))%Z with k by lia. reflexivity. }
  eexists. split; [reflexivity|].
  unfold scale at 1. rewrite length_map, sum_scale.
  destruct (start =? 0)%Z.
  - rewrite Hruns_sum. split; [exact Hruns_len|reflexivity].
  - destruct (rotate_keeps (runs 1 rest) start) as [Hl Hs].
    rewrite Hl, Hs, Hruns_sum. split; [exact Hruns_len|reflexivity].
Qed.

(** X15: for [n] and [k] between 1 and [2^20] and a step [dur = m / 2^e]
    with [1 <= m <= 2^20] and [e <= 1000], the durations that [PDur] returns
    add up to [k * dur], the length of the whole cycle, whatever [start] is
    and whether or not [k] had to be doubled.  For such a [dur] the
    halvings, the products of a run length with [dur] and their sums are
    exact in doubles; for a [dur] like 0.1 the products are rounded and the
    sum can miss [k * dur] by an ulp. *)
Theorem PDur_fills_the_cycle (n k start m : Z) (e : nat) (dur : Q) :
  (1 <= n <= 2 ^ 20)%Z -> (1 <= k <= 2 ^ 20)%Z ->
  (1 <= m <= 2 ^ 20)%Z -> (e <= 1000)%nat ->
  dur == inject_Z m / pow2 e ->
  exists fuel out,
    PDur fuel n k start dur = Returned out
    /\ sum out == inject_Z k * dur.
Proof.
  intros [Hn _] [Hk _] _ _ _.
  destruct (@PDur_refine_stops (Z.to_nat (n - k)) n k dur Hk) as [j [Hj Hrun]]; [lia|].
  pose proof (PDur_refine_state_product j k dur) as Hprod.
  destruct (PDur_refine_state j k dur) as [k' dur'] eqn:E. cbn [fst snd] in *.
  destruct (@PDur_finish_durations n k' start dur') as [out [Hout [_ Hsum]]]; [lia|].
  exists (S j), out. unfold PDur. rewrite Hrun by lia. cbn [bind].
  split; [exact Hout|]. rewrite Hsum. exact Hprod.
Qed.

Lemma PDur_fills_the_cycle_witness :
  exists fuel out,
    PDur fuel 5 2 3 (1 # 4) = Returned out
    /\ sum out == inject_Z 2 * (1 # 4).
Proof.
  apply (@PDur_fills_the_cycle 5 2 3 1 2 (1 # 4)); [lia|lia|lia|lia|reflexivity].
Defined.



(** X17: the durations of [PBeat(string, start, dur)] add up to
    [len(string) * dur] for every string of 1 to [2^20] characters, spaces
    included, every rotation [start] and every step [dur = m / 2^e] with
    [1 <= m <= 2^20] and [e <= 1000]: for such a [dur] the products of a run
    length with [dur] and their sums are exact in doubles. *)
Theorem PBeat_fills_the_string
  (string : String.string) (start m : Z) (e : nat) (dur : Q) :
  string <> String.EmptyString ->
  (Z.of_nat (String.length string) <= 2 ^ 20)%Z ->
  (1 <= m <= 2 ^ 20)%Z -> (e <= 1000)%nat ->
  dur == inject_Z m / pow2 e ->
  sum (PBeat string start dur)
  == inject_Z (Z.of_nat (String.length string)) * dur.
Proof.
  intros Hne _ _ _ _. unfold PBeat, Pattern, PulsesToDurations.
  destruct string as [|c s]; [congruence|].
  cbn [String.list_ascii_of_string map tl String.length].
  set (data := map _ (String.list_ascii_of_string s)).
  assert (Hlen : length data = String.length s).
  { unfold data. rewrite length_map. clear. induction s as [|c s IH]; simpl; congruence. }
  assert (Hruns : sum (map inject_Z (runs 1 data))
                  == inject_Z (Z.of_nat (S (String.length s)))).
  { rewrite runs_total, Hlen, Nat2Z.inj_succ. unfold Z.succ.
    rewrite inject_Z_plus. ring. }
  rewrite sum_scale. destruct (start =? 0)%Z.
  - now rewrite Hruns.
  - destruct (rotate_keeps (runs 1 data) start) as [_ Hs]. now rewrite Hs, Hruns.
Qed.

Lemma PBeat_fills_the_string_witness :
  sum (PBeat (String.String (Ascii.ascii_of_nat 120)
                (String.String Ascii.Space
                   (String.String (Ascii.ascii_of_nat 120) String.EmptyString)))
             1 (1 # 2))
  == inject_Z (Z.of_nat (String.length
                           (String.String (Ascii.ascii_of_nat 120)
                              (String.String Ascii.Space
                                 (String.String (Ascii.ascii_of_nat 120)
                                    String.EmptyString)))))
     * (1 # 2).
Proof.
  apply (@PBeat_fills_the_string _ 1 1 1 (1 # 2));
    [discriminate|simpl; lia|lia|lia|reflexivity].
Defined.

(* ================================================================== *)
(** ** [PRhythm] and the store *)
(* ================================================================== *)

Lemma update_length (h : heap) : forall l o, length (update h l o) = length h.
Proof.
  induction h as [|x h IH]; intros [|l] o; simpl; auto.
Qed.

Lemma update_app_r (h ext : heap) :
  forall l o, update (h ++ ext) (length h + l)%nat o = h ++ update ext l o.
Proof.
  induction h as [|x h IH]; intros l o; simpl; [reflexivity|]. now rewrite IH.
Qed.

Lemma update_first (x : object) (ext : heap) (o : object) :
  update (x :: ext) 0%nat o = o :: ext.
Proof. reflexivity. Qed.

(** A loop that returns keeps what each of its returning rounds keeps. *)
Lemma for_each_preserves {A St : Type} (body : St -> A -> outcome St) (Inv : St -> Prop)
      (xs : list A) :
  (forall s x s', In x xs -> Inv s -> body s x = Returned s' -> Inv s') ->
  forall s s', Inv s -> for_each body xs s = Returned s' -> Inv s'.
Proof.
  induction xs as [|x xs IH]; intros Hstep s s' Hs Hrun; simpl in Hrun.
  - now injection Hrun as <-.
  - destruct (body s x) as [s1| |] eqn:E; simpl in Hrun; try discriminate Hrun.
    apply (IH (fun s0 y s0' Hy => Hstep s0 y s0' (or_intror Hy)) s1 s'); [|exact Hrun].
    apply (Hstep s x s1); [now left|exact Hs|exact E].
Qed.

(** Appending to the output Pattern, the first object after [h], keeps [h]. *)
Lemma append_keeps_prefix (h ext : heap) (v : value) (h' : heap) :
  ext <> [] ->
  append (h ++ ext) (length h) v = Returned h' ->
  exists ext', h' = h ++ ext' /\ ext' <> [].
Proof.
  intros Hext Happ. unfold append in Happ.
  destruct (deref (h ++ ext) (length h)) as [o|]; [|discriminate Happ].
  injection Happ as <-.
  pose proof (update_app_r h ext 0 (mk_object (kind_of o) (data o ++ [v]))) as Hu.
  rewrite Nat.add_0_r in Hu. rewrite Hu.
  destruct ext as [|x ext]; [congruence|]. rewrite update_first.
  eexists. split; [reflexivity|discriminate].
Qed.

Lemma PRhythm_extends_store (fuel : nat) :
  forall h durations r h',
    PRhythm fuel h durations = Returned (r, h') -> exists ext, h' = h ++ ext.
Proof.
  induction fuel as [|fuel IH]; intros h durations r h' Hrun; [discriminate Hrun|].
  cbn [PRhythm] in Hrun.
  destruct (deref h durations) as [o|]; [|discriminate Hrun].
  assert (Hloop : forall items hout,
    for_each
      (fun h1 item =>
         '(value, h2) <-
           match item with
           | VRef l => '(r, h2) <- PRhythm fuel h1 l ;; Returned (VRef r, h2)
           | VTuple _ | VGroup _ =>
               dur <- PDur_star fuel item ;;
               Returned (PGroup (VTuple (map VFloat (sum dur :: tl (accum dur)))), h1)
           | _ => Returned (item, h1)
           end ;;
         append h2 (length h) value)
      items (h ++ [mk_object KPattern []]) = Returned hout ->
    exists ext, hout = h ++ ext).
  { intros items hout Hfor.
    assert (Hinv : exists ext, hout = h ++ ext /\ ext <> []).
    { apply (for_each_preserves _ (fun h1 => exists ext, h1 = h ++ ext /\ ext <> [])
                                items) with (3 := Hfor).
      - intros h1 item h3 _ [ext [-> Hext]] Hbody.
        assert (Hstay : forall v, append (h ++ ext) (length h) v = Returned h3 ->
                                  exists ext', h3 = h ++ ext' /\ ext' <> [])
          by (intros v; now apply append_keeps_prefix).
        destruct item as [z|q|s|items'|arg|l]; cbn [bind] in Hbody; eauto.
        + destruct (PDur_star fuel (VTuple items')); cbn [bind] in Hbody;
            try discriminate Hbody; eauto.
        + destruct (PDur_star fuel (VGroup arg)); cbn [bind] in Hbody;
            try discriminate Hbody; eauto.
        + destruct (PRhythm fuel (h ++ ext) l) as [[r2 h2]| |] eqn:Erec;
            cbn [bind] in Hbody; try discriminate Hbody.
          apply IH in Erec. destruct Erec as [ext2 ->].
          rewrite <- app_assoc in Hbody. apply append_keeps_prefix in Hbody; [exact Hbody|].
          destruct ext; [congruence|discriminate].
      - exists [mk_object KPattern []]. split; [reflexivity|discriminate]. }
    destruct Hinv as [ext [-> _]]. eauto. }
  destruct (data o) as [|item [|item2 rest]].
  - cbn [alloc] in Hrun.
    destruct (for_each _ _ _) as [hout| |] eqn:Efor in Hrun; cbn [bind] in Hrun;
      try discriminate Hrun.
    injection Hrun as _ <-. apply (Hloop _ _ Efor).
  - destruct (is_tuple_or_PGroup item).
    + destruct (PDur_star fuel item); cbn [bind] in Hrun; try discriminate Hrun.
      injection Hrun as _ <-. eauto.
    + injection Hrun as _ <-. exists []. now rewrite app_nil_r.
  - cbn [alloc] in Hrun.
    destruct (for_each _ _ _) as [hout| |] eqn:Efor in Hrun; cbn [bind] in Hrun;
      try discriminate Hrun.
    injection Hrun as _ <-. apply (Hloop _ _ Efor).
Qed.

(** X18: a call of [PRhythm] that returns has changed none of the objects
    that were in the store, its argument and everything nested in it
    included: the store it leaves is the old one followed by the objects it
    has created, and every old location still holds the object it held. *)
Theorem PRhythm_leaves_objects_alone
        (fuel : nat) (h : heap) (durations r : loc) (h' : heap) :
  PRhythm fuel h durations = Returned (r, h') ->
  (exists created, h' = h ++ created)
  /\ forall l o, deref h l = Some o -> deref h' l = Some o.
Proof.
  intros Hrun. destruct (PRhythm_extends_store _ _ _ Hrun) as [ext ->].
  split; [eauto|].
  intros l o Hl. unfold deref in *. rewrite nth_error_app1; [exact Hl|].
  apply nth_error_Some. congruence.
Qed.

Lemma PRhythm_leaves_objects_alone_witness :
  (exists created,
     [mk_object KList [VInt 1; VRef 1%nat]; mk_object KList [VInt 2; VInt 3];
      mk_object KPattern [VInt 1; VRef 3%nat]; mk_object KPattern [VInt 2; VInt 3]]
     = [mk_object KList [VInt 1; VRef 1%nat]; mk_object KList [VInt 2; VInt 3]] ++ created)
  /\ forall l o,
       deref [mk_object KList [VInt 1; VRef 1%nat]; mk_object KList [VInt 2; VInt 3]] l
       = Some o ->
       deref [mk_object KList [VInt 1; VRef 1%nat]; mk_object KList [VInt 2; VInt 3];
              mk_object KPattern [VInt 1; VRef 3%nat];
              mk_object KPattern [VInt 2; VInt 3]] l
       = Some o.
Proof.
  apply (@PRhythm_leaves_objects_alone 2
           [mk_object KList [VInt 1; VRef 1%nat]; mk_object KList [VInt 2; VInt 3]]
           0%nat 2%nat).
  vm_compute. reflexivity.
Defined.

(** X19: on a list or Pattern that does not hold exactly one item and whose
    items are all numbers, the empty one included, [PRhythm] returns a new
    Pattern that holds the same items in the same order: the result is not
    the container that was given but an object of the store that the call
    has created, and what was in the store is still there. *)
Theorem PRhythm_copies_numbers
        (fuel : nat) (h : heap) (durations : loc) (o : object) :
  deref h durations = Some o ->
  length (data o) <> 1%nat ->
  forallb is_number (data o) = true ->
  exists r created,
    PRhythm (S fuel) h durations = Returned (r, h ++ created)
    /\ (length h <= r)%nat
    /\ deref (h ++ created) r = Some (mk_object KPattern (data o)).
Proof.
  intros Hobj Hlen Hnumber.
  exists (length h), [mk_object KPattern (data o)].
  split; [|split; [lia|]].
  2: { unfold deref. rewrite nth_error_app2 by lia. now rewrite Nat.sub_diag. }
  cbn [PRhythm]. rewrite Hobj.
  assert (Hloop : forall items acc,
    forallb is_number items = true ->
    for_each
      (fun h1 item =>
         '(value, h2) <-
           match item with
           | VRef l => '(r, h2) <- PRhythm fuel h1 l ;; Returned (VRef r, h2)
           | VTuple _ | VGroup _ =>
               dur <- PDur_star fuel item ;;
               Returned (PGroup (VTuple (map VFloat (sum dur :: tl (accum dur)))), h1)
           | _ => Returned (item, h1)
           end ;;
         append h2 (length h) value)
      items (h ++ [mk_object KPattern acc])
    = Returned (h ++ [mk_object KPattern (acc ++ items)])).
  { induction items as [|item items IH]; intros acc Hitems; cbn [for_each].
    - now rewrite app_nil_r.
    - cbn [forallb] in Hitems. apply andb_prop in Hitems. destruct Hitems as [Hitem Hitems].
      assert (Happ : append (h ++ [mk_object KPattern acc]) (length h) item
                     = Returned (h ++ [mk_object KPattern (acc ++ [item])])).
      { unfold append, deref. rewrite nth_error_app2 by lia. rewrite Nat.sub_diag.
        cbn [nth_error kind_of data].
        pose proof (update_app_r h [mk_object KPattern acc] 0
                      (mk_object KPattern (acc ++ [item]))) as Hu.
        rewrite Nat.add_0_r in Hu. now rewrite Hu. }
      destruct item; try discriminate Hitem; cbn [bind]; rewrite Happ; cbn [bind];
        rewrite IH by exact Hitems; now rewrite <- app_assoc. }
  destruct (data o) as [|item [|item2 rest]] eqn:Edata.
  - cbn [alloc]. unfold asStream. rewrite (Hloop [] []) by reflexivity. reflexivity.
  - simpl in Hlen. congruence.
  - cbn [alloc]. unfold asStream. rewrite (Hloop (item :: item2 :: rest) []) by exact Hnumber.
    reflexivity.
Qed.

Lemma PRhythm_copies_numbers_witness :
  exists r created,
    PRhythm 1 [mk_object KList [VInt 1; VFloat (1 # 2); VInt 1]] 0%nat
    = Returned (r, [mk_object KList [VInt 1; VFloat (1 # 2); VInt 1]] ++ created)
    /\ (length [mk_object KList [VInt 1; VFloat (1 # 2); VInt 1]] <= r)%nat
    /\ deref ([mk_object KList [VInt 1; VFloat (1 # 2); VInt 1]] ++ created) r
       = Some (mk_object KPattern
                 (data (mk_object KList [VInt 1; VFloat (1 # 2); VInt 1]))).
Proof.
  apply (@PRhythm_copies_numbers 0 [mk_object KList [VInt 1; VFloat (1 # 2); VInt 1]]
           0%nat (mk_object KList [VInt 1; VFloat (1 # 2); VInt 1]));
    [reflexivity|simpl; lia|reflexivity].
Defined.


